(** * Block download scheduling of libbitcoin-node

    A shallow embedding of the reservation table
    ([src/src/reservations.cpp]) and of the inbound block protocol
    ([src/src/protocols/protocol_block_in.cpp]), followed by the
    properties of these two units.

    Conventions.
    - [size_t] values are [N]; the only operation of the sources that can
      wrap, the subtraction in [reservations::reserve], is written out
      modulo [2^64].  The size of a container is the length of the list
      that models it.
    - The rows of the table are [std::shared_ptr<reservation>]: the same
      slot object is reachable from the table and from the protocol that
      owns it.  Slot objects therefore live in a heap, and the table holds
      addresses.
    - The classes [hash_queue] and [reservation] are part of the
      repository but not of the files at hand; their operations are
      modelled from the specification and marked as such. *)

From Stdlib Require Import NArith ZArith Floats Uint63 Lia.
From stdpp Require Import base option list.

Set Default Proof Using "Type".

(** ** Machine integers and loops *)

(** [max_size_t]: the largest [size_t] (64-bit build). *)
Definition max_size_t : N := 18446744073709551615.

(** Unsigned subtraction on [size_t], wrapping modulo [2^64]. *)
Definition size_sub (a b : N) : N :=
  Z.to_N ((Z.of_N a - Z.of_N b) mod 2 ^ 64).

(** Unsigned multiplication on [size_t], wrapping modulo [2^64]. *)
Definition size_mul (a b : N) : N := ((a * b) mod 2 ^ 64)%N.

(** [for (size_t i = 0; i < n; ++i) s = body(i, s);] *)
Definition for_loop {S : Type} (n : N) (body : N → S → S) (s : S) : S :=
  snd (N.iter n (λ c : N * S, (N.succ (fst c), body (fst c) (snd c))) (0%N, s)).

(** [std::max_element(first, last, comp)]: the first of the greatest
    elements; [largest] is replaced only by a strictly greater one. *)
Definition max_element {A : Type} (comp : A → A → bool) (l : list A) : option A :=
  match l with
  | [] => None
  | first :: rest =>
      Some (foldl (λ largest x, if comp largest x then x else largest) first rest)
  end.

(** ** The queue of block hashes awaiting assignment *)

Module hash_queue.

(** A block hash: 32 bytes, read as a number below [2^256]. *)
Definition hash_digest : Type := N.

(** Modelled from the spec: the class [hash_queue] is missing from the
    sources.  A HashEntry is a pair of a block hash and its height. *)
Record entry : Type := { hash : hash_digest; height : N }.

(** Modelled from the spec: the class [hash_queue] is missing from the
    sources.  The HashQueue is an ordered sequence of entries, strictly
    FIFO for dequeue. *)
Definition t : Type := list entry.

(** Modelled from the spec: [hash_queue::size] is missing from the
    sources.  The number of entries in the queue. *)
Definition size (q : t) : N := N.of_nat (length q).

(** Modelled from the spec: [hash_queue::enqueue] is missing from the
    sources.  Appends an entry. *)
Definition enqueue (e : entry) (q : t) : t := q ++ [e].

(** Modelled from the spec: [hash_queue::dequeue] is missing from the
    sources.  Pops the front entry, or fails on an empty queue. *)
Definition dequeue (q : t) : option (entry * t) :=
  match q with
  | [] => None
  | e :: rest => Some (e, rest)
  end.

End hash_queue.

(** ** One slot of the reservation table *)

Module reservation.

(** Modelled from the spec: the rate record of a slot is missing from the
    sources.  A RateSample is the triple (events, database_ns,
    window_ns). *)
Record rate_sample : Type := { events : N; database : N; window : N }.

(** Modelled from the spec: the class [reservation] is missing from the
    sources.  A slot has a [slot_id], the ordered [pending] hashes with
    their heights (insertion order preserved), a rate sample, the
    [stopped] flag and its timeout.  The history ring, used only by
    [expired], is left out. *)
Record t : Type := {
  slot_ : N;
  heights_ : list hash_queue.entry;
  rate_ : rate_sample;
  stopped_ : bool;
  timeout_ : N
}.

(** [reservation(reservations&, size_t slot, uint32_t timeout)]: an empty
    slot, as [reservations::initialize] constructs it. *)
Definition make (slot timeout : N) : t :=
  {| slot_ := slot; heights_ := [];
     rate_ := {| events := 0; database := 0; window := 0 |};
     stopped_ := false; timeout_ := timeout |}.

Definition slot (r : t) : N := slot_ r.
Definition stopped (r : t) : bool := stopped_ r.
Definition rate (r : t) : rate_sample := rate_ r.

(** Modelled from the spec: [reservation::size] is missing from the
    sources.  The number of pending hashes. *)
Definition size (r : t) : N := N.of_nat (length (heights_ r)).

(** Modelled from the spec: [reservation::empty] is missing from the
    sources. *)
Definition empty (r : t) : bool := (size r =? 0)%N.

(** Modelled from the spec: [reservation::idle] is missing from the
    sources.  A slot is idle when its rate counts no events. *)
Definition idle (r : t) : bool := (events (rate_ r) =? 0)%N.

(** Modelled from the spec: [reservation::insert] is missing from the
    sources.  Adds the hash to [pending], after those already there. *)
Definition insert (e : hash_queue.entry) (r : t) : t :=
  {| slot_ := slot_ r; heights_ := heights_ r ++ [e]; rate_ := rate_ r;
     stopped_ := stopped_ r; timeout_ := timeout_ r |}.

(** Modelled from the spec: [reservation::partition] is missing from the
    sources.  Moves half, rounded up, of this slot's pending hashes to
    [other], sets this slot's [stopped], and returns whether at least one
    hash moved.  The result is the donor, the receiver and the flag. *)
Definition partition (self other : t) : t * t * bool :=
  let offset := (length (heights_ self) + 1) / 2 in
  let moved := take offset (heights_ self) in
  ({| slot_ := slot_ self; heights_ := drop offset (heights_ self);
      rate_ := rate_ self; stopped_ := true; timeout_ := timeout_ self |},
   foldl (λ r e, insert e r) other moved,
   bool_decide (moved ≠ [])).

(** Modelled from the spec: [reservation::divide] is missing from the
    sources.  The division helper returns 0 when the denominator is 0;
    the divisor is a [size_t] (a container size, far below [2^63])
    converted to [double]. *)
Definition divide (dividend : float) (divisor : N) : float :=
  if (divisor =? 0)%N then 0%float
  else (dividend / of_uint63 (Uint63.of_Z (Z.of_N divisor)))%float.

End reservation.

(** ** The reservation table *)

Module reservations.

(** The protocol maximum size of get data block requests. *)
Definition max_block_request : N := 50000.

(** [max_request_], set once by the constructor. *)
Definition max_request_ : N := max_block_request.

(** The address of a slot object ([reservation::ptr]). *)
Abbreviation ptr := nat (only parsing).

(** The state [reservations] works on: the heap of slot objects shared
    with the protocols, the table of row pointers, the hash queue the
    table refers to and the timeout given to new slots. *)
Record state : Type := {
  heap : list reservation.t;
  table_ : list ptr;
  hashes_ : hash_queue.t;
  timeout_ : N
}.

Definition set_heap (h : list reservation.t) (st : state) : state :=
  {| heap := h; table_ := table_ st; hashes_ := hashes_ st;
     timeout_ := timeout_ st |}.

Definition set_table (tb : list ptr) (st : state) : state :=
  {| heap := heap st; table_ := tb; hashes_ := hashes_ st;
     timeout_ := timeout_ st |}.

Definition set_hashes (q : hash_queue.t) (st : state) : state :=
  {| heap := heap st; table_ := table_ st; hashes_ := q;
     timeout_ := timeout_ st |}.

(** [*p].  A shared pointer always designates a live slot; for an address
    outside the heap the model reads an empty slot and writes nothing. *)
Definition deref (st : state) (p : ptr) : reservation.t :=
  default (reservation.make 0 0) (heap st !! p).

(** [p->insert(hash, height)]. *)
Definition insert_at (p : ptr) (e : hash_queue.entry) (st : state) : state :=
  set_heap (alter (reservation.insert e) p (heap st)) st.

(** [std::make_shared<reservation>(...)]: a fresh slot object. *)
Definition make_shared (r : reservation.t) (st : state) : ptr * state :=
  (length (heap st), set_heap (heap st ++ [r]) st).

(** [table_.push_back(p)]. *)
Definition push_back (p : ptr) (st : state) : state :=
  set_table (table_ st ++ [p]) st.

(** Modelled from the spec: the struct [rate_statistics] is declared in a
    header that is missing from the sources.  The summary returned by
    [rates]: the number of active rows, the mean and the standard
    deviation of their rates. *)
Record rate_statistics : Type := {
  active_rows : N;
  mean : float;
  stdev : float
}.

(** [reservations::table]: a copy of the row pointers. *)
Definition table (st : state) : list ptr := table_ st.

(** [reservations::rates].  [normal] is [performance::normal], the
    normalized rate of a slot's sample, whose definition is not part of
    the sources. *)
Definition rates (normal : reservation.rate_sample → float) (st : state)
  : rate_statistics :=
  let rows := table st in
  let idle := λ row : ptr, reservation.idle (deref st row) in
  (* Remove idle rows. *)
  let rows := filter (λ row, idle row = false) rows in
  let active_rows := N.of_nat (length rows) in
  let normal_rate := λ row : ptr, normal (reservation.rate (deref st row)) in
  (* Convert to a rates table and sum. *)
  let rates := normal_rate <$> rows in
  let total := foldl PrimFloat.add 0%float rates in
  (* Calculate mean and sum of deviations. *)
  let mean := reservation.divide total active_rows in
  let summary := λ initial rate : float,
    let difference := (mean - rate)%float in
    (initial + difference * difference)%float in
  (* Calculate the standard deviation in the rate deviations. *)
  let squares := foldl summary 0%float rates in
  let quotient := reservation.divide squares active_rows in
  let standard_deviation := PrimFloat.sqrt quotient in
  {| active_rows := active_rows; mean := mean; stdev := standard_deviation |}.

(** [std::find(first, last, value)]: the position of the first
    occurrence. *)
Fixpoint find (row : ptr) (l : list ptr) : option nat :=
  match l with
  | [] => None
  | p :: rest => if decide (p = row) then Some 0 else S <$> find row rest
  end.

(** [reservations::remove]. *)
Definition remove (row : ptr) (st : state) : state :=
  match find row (table_ st) with
  | None => st
  | Some it => set_table (delete it (table_ st)) st
  end.

(** The locals [hash] and [height] of [initialize] and [reserve], written
    by a successful [dequeue].  They are declared without initializer;
    no run reads them before the first successful dequeue. *)
Definition indeterminate : hash_queue.entry :=
  {| hash_queue.hash := 0%N; hash_queue.height := 0%N |}.

(** [hashes_.dequeue(hash, height)] with its result ignored: a failed
    dequeue leaves the locals as they were. *)
Definition dequeue_into (c : hash_queue.entry * state) : hash_queue.entry * state :=
  match hash_queue.dequeue (hashes_ (snd c)) with
  | Some (e, rest) => (e, set_hashes rest (snd c))
  | None => c
  end.

(** The body of the inner loop of [initialize]:
    [hashes_.dequeue(hash, height); table_[row]->insert(hash, height);]
    ([table_[row]] is always in range there: the rows were just pushed). *)
Definition distribute (row : N) (c : hash_queue.entry * state)
  : hash_queue.entry * state :=
  let c := dequeue_into c in
  match table_ (snd c) !! N.to_nat row with
  | Some p => (fst c, insert_at p (fst c) (snd c))
  | None => c
  end.

(** [reservations::initialize]. *)
Definition initialize (size : N) (st : state) : state :=
  (* Guard against overflow by capping size. *)
  let max_rows := (max_size_t / max_request_)%N in
  let rows := N.min max_rows size in
  (* Ensure that there is at least one block per row. *)
  let blocks := hash_queue.size (hashes_ st) in
  let rows := N.min rows blocks in
  if (rows =? 0)%N then st
  else
    (* Allocate no more than 50k headers per row. *)
    let max_allocation := size_mul rows max_request_ in
    let allocation := N.min blocks max_allocation in
    let st :=
      for_loop rows (λ row st,
        let (p, st) := make_shared (reservation.make row (timeout_ st)) st in
        push_back p st) st in
    (* The (allocation / rows) * rows cannot exceed allocation. *)
    (* The remainder is retained by the hash list for later reservation. *)
    snd (for_loop (allocation / rows) (λ _ c, for_loop rows distribute c)
           (indeterminate, st)).

(** The constructor [reservations::reservations]: an empty table over the
    given queue, initialized with [settings.download_connections] rows.
    [objects] are the slot objects already on the heap. *)
Definition create (objects : list reservation.t) (hashes : hash_queue.t)
  (block_timeout_seconds download_connections : N) : state :=
  initialize download_connections
    {| heap := objects; table_ := []; hashes_ := hashes;
       timeout_ := block_timeout_seconds |}.

(** [reservations::find_maximal]. *)
Definition find_maximal (st : state) : option ptr :=
  match table_ st with
  | [] => None
  | _ =>
      (* The maximal row is that with the most block hashes reserved. *)
      let comparer := λ left right : ptr,
        (reservation.size (deref st left) <? reservation.size (deref st right))%N in
      max_element comparer (table_ st)
  end.

(** [maximal->partition(minimal)] on two distinct slot objects. *)
Definition partition_rows (maximal minimal : ptr) (st : state) : state * bool :=
  let '(self, other, moved) :=
    reservation.partition (deref st maximal) (deref st minimal) in
  (set_heap (<[minimal := other]> (<[maximal := self]> (heap st))) st, moved).

(** [reservations::partition]:
    [maximal && maximal != minimal && maximal->partition(minimal)]. *)
Definition partition (minimal : ptr) (st : state) : state * bool :=
  match find_maximal st with
  | None => (st, false)
  | Some maximal =>
      if decide (maximal ≠ minimal) then partition_rows maximal minimal st
      else (st, false)
  end.

(** The body of the loop of [reserve]:
    [hashes_.dequeue(hash, height); minimal->insert(hash, height);] *)
Definition take_one (minimal : ptr) (c : hash_queue.entry * state)
  : hash_queue.entry * state :=
  let c := dequeue_into c in
  (fst c, insert_at minimal (fst c) (snd c)).

(** [reservations::reserve]. *)
Definition reserve (minimal : ptr) (st : state) : state * bool :=
  let size := hash_queue.size (hashes_ st) in
  let existing := reservation.size (deref st minimal) in
  let allocation := N.min size (size_sub max_request_ existing) in
  let st := snd (for_loop allocation (λ _, take_one minimal) (indeterminate, st)) in
  (* This may become empty between insert and this test, which is okay. *)
  (st, negb (reservation.empty (deref st minimal))).

(** [reservations::populate]: [reserve(minimal) || partition(minimal)]. *)
Definition populate (minimal : ptr) (st : state) : state * bool :=
  (* Take from unallocated or allocated hashes. *)
  let (st, reserved) := reserve minimal st in
  if reserved then (st, true) else partition minimal st.

End reservations.

(** ** The inbound block protocol *)

Module protocol_block_in.

Definition hash_digest : Type := hash_queue.hash_digest.

(** Error codes ([system::code]).  [success] is the zero code; the codes
    other than the two the protocol names are kept by their number. *)
Inductive code : Type :=
| success
| channel_timeout
| channel_stopped
| failure (value : positive).

#[global] Instance code_eq_dec : EqDecision code.
Proof. solve_decision. Defined.

(** [if (ec)]: a code converts to [true] when it is an error. *)
Definition is_error (ec : code) : bool :=
  match ec with
  | success => false
  | _ => true
  end.

(** Inventory type identifiers ([inventory::type_id]). *)
Inductive type_id : Type :=
| msg_error
| msg_transaction
| msg_block
| msg_filtered_block
| msg_compact_block
| msg_witness_transaction
| msg_witness_block.

Record inventory_vector : Type := { type : type_id; inventory_hash : hash_digest }.

(** The [get_data] request message. *)
Record get_data : Type := { inventories : list inventory_vector }.

(** The witness variant of an inventory type (system library): block and
    transaction requests have one. *)
Definition witness_type (t : type_id) : type_id :=
  match t with
  | msg_transaction => msg_witness_transaction
  | msg_block => msg_witness_block
  | other => other
  end.

(** [get_data::to_witness]: convert the requested message types to the
    corresponding witness types. *)
Definition to_witness (m : get_data) : get_data :=
  {| inventories :=
       (λ i, {| type := witness_type (type i);
                inventory_hash := inventory_hash i |}) <$> inventories m |}.

(** What the protocol reads of a block message. *)
Record block : Type := {
  hash : hash_digest;
  transactions : N;
  total_inputs : N
}.

Inductive level : Type := debug | info | error | fatal.

(** The lines the protocol writes to the log. *)
Inductive log_line : Type :=
| sending_request (hashes : N)
| receive_failure (ec : code)
| restarting_partitioned_slot
| unrequested_or_partitioned_block
| organize_failure (ec : code)
| progress (height : N) (block_hash : hash_digest) (transactions inputs : N)
| header_index_failure (ec : code)
| timer_failure (ec : code)
| restarting_slow_slot.

(** The members of the protocol that the handlers read. *)
Record t : Type := { require_witness_ : bool; peer_witness_ : bool }.

(** [version::service::node_witness], the service bit of a node that
    serves witness data (bit 3, from the system library). *)
Definition node_witness : N := 8.

(** [is_witness]. *)
Definition is_witness (services : N) : bool :=
  negb (N.land services node_witness =? 0)%N.

(** The constructor [protocol_block_in::protocol_block_in], from the
    services of the node and those of the peer's version message. *)
Definition create (node_services peer_services : N) : t :=
  {| require_witness_ := is_witness node_services;
     peer_witness_ := is_witness peer_services |}.

(** The calls the handlers make on their collaborators: the base protocol
    and its channel ([stopped], [stop], [send]), the chain, the
    reservation of the protocol, and the log.  The index is the type of
    the answer. *)
Inductive call : Type → Type :=
| stopped (ec : option code) : call bool
| stop (ec : code) : call unit
| send (request : get_data) : call unit
| is_candidates_stale : call bool
| is_blocks_stale : call bool
| organize (message : block) (height : N) : call code
| unsubscribe : call unit
| reservation_request : call get_data
| reservation_stopped : call bool
| reservation_find_height_and_erase (h : hash_digest) : call (option N)
| reservation_update_history (message : block) : call unit
| reservation_expired : call bool
| reservation_stop : call unit
| log (l : level) (line : log_line) : call unit.

(** A handler body: a finite tree of calls, each continued by its
    answer. *)
Inductive prog (A : Type) : Type :=
| Ret (a : A)
| Do {X : Type} (c : call X) (k : X → prog A).

Arguments Ret {A} a.
Arguments Do {A X} c k.

Fixpoint bind {A B : Type} (p : prog A) (f : A → prog B) : prog B :=
  match p with
  | Ret a => f a
  | Do c k => Do c (λ x, bind (k x) f)
  end.

#[global] Instance prog_ret : MRet prog := @Ret.
#[global] Instance prog_bind : MBind prog := λ A B f p, bind p f.

Definition perform {X : Type} (c : call X) : prog X := Do c Ret.

(** [send_get_blocks]. *)
Definition send_get_blocks (self : t) : prog unit :=
  is_stopped ← perform (stopped None);
  if is_stopped : bool then mret tt
  else
    (* Don't start downloading blocks until the header chain is current. *)
    stale ← perform is_candidates_stale;
    if stale : bool then mret tt
    else
      (* Repopulate if empty and new work has arrived. *)
      request ← perform reservation_request;
      (* Or we may be the same channel and with hashes already requested. *)
      match inventories request with
      | [] => mret tt
      | _ =>
          (* Convert requested message types to corresponding witness types. *)
          let request :=
            if require_witness_ self then to_witness request else request in
          perform (log debug
                     (sending_request (N.of_nat (length (inventories request)))));;
          perform (send request)
      end.

(** [report]: the progress line.  Its three timing columns (rounded
    single precision quotients), the slot and the length of the download
    queue are not part of the model. *)
Definition report (message : block) (height : N) : prog unit :=
  let transactions := transactions message in
  let inputs := N.max (total_inputs message) 1 in
  perform (log info (progress height (hash message) transactions inputs)).

(** [handle_receive_block]. *)
Definition handle_receive_block (self : t) (ec : code) (message : block)
  : prog bool :=
  is_stopped ← perform (stopped (Some ec));
  if is_stopped : bool then mret false
  else if is_error ec then
    perform (log error (receive_failure ec));;
    perform (stop ec);;
    mret false
  (* Stop if required witness is unavailable. *)
  else if require_witness_ self && negb (peer_witness_ self) then
    perform (stop channel_stopped);;
    mret false
  else
    (* This channel was slowest, so half of its reservation has been taken. *)
    partitioned ← perform reservation_stopped;
    if partitioned : bool then
      perform (log debug restarting_partitioned_slot);;
      perform (stop channel_stopped);;
      mret false
    else
      found ← perform (reservation_find_height_and_erase (hash message));
      match found with
      | None =>
          perform (log debug unrequested_or_partitioned_block);;
          perform (stop channel_stopped);;
          mret false
      | Some height =>
          error_code ← perform (organize message height);
          if is_error error_code then
            perform (log fatal (organize_failure error_code));;
            perform (stop error_code);;
            mret false
          else
            (* Recompute rate performance, excluding store cost. *)
            perform (reservation_update_history message);;
            (* Only log every 100th block, until current number of blocks. *)
            stale ← perform is_blocks_stale;
            let period := if stale : bool then 100%N else 1%N in
            (if (height mod period =? 0)%N then report message height
             else mret tt);;
            send_get_blocks self;;
            mret true
      end.

(** [handle_reindexed]: header indexation as a block request trigger. *)
Definition handle_reindexed (self : t) (ec : code) : prog bool :=
  is_stopped ← perform (stopped (Some ec));
  if is_stopped : bool then mret false
  else if is_error ec then
    perform (log error (header_index_failure ec));;
    perform (stop ec);;
    mret false
  else
    send_get_blocks self;;
    mret true.

(** [handle_event]: fired by the base timer and the stop handler. *)
Definition handle_event (self : t) (ec : code) : prog unit :=
  is_stopped ← perform (stopped (Some ec));
  if is_stopped : bool then
    (* No longer receiving blocks, so free up the reservation. *)
    perform reservation_stop;;
    (* Trigger unsubscribe or protocol will hang until next header indexed. *)
    perform unsubscribe
  else if is_error ec && bool_decide (ec ≠ channel_timeout) then
    perform (log error (timer_failure ec));;
    perform (stop ec)
  else
    (* This ensures that a stall does not persist. *)
    is_expired ← perform reservation_expired;
    if is_expired : bool then
      perform (log debug restarting_slow_slot);;
      perform (stop ec)
    else mret tt.

(** *** Running a handler against its collaborators *)

(** What a run leaves behind: each call with the answer it got. *)
Inductive event : Type :=
| on_stopped (ec : option code) (answer : bool)
| on_stop (ec : code)
| on_send (request : get_data)
| on_is_candidates_stale (answer : bool)
| on_is_blocks_stale (answer : bool)
| on_organize (message : block) (height : N) (answer : code)
| on_unsubscribe
| on_request (answer : get_data)
| on_reservation_stopped (answer : bool)
| on_find_height_and_erase (h : hash_digest) (answer : option N)
| on_update_history (message : block)
| on_expired (answer : bool)
| on_reservation_stop
| on_log (l : level) (line : log_line).

Definition observe {X : Type} (c : call X) : X → event :=
  match c in call X return X → event with
  | stopped ec => on_stopped ec
  | stop ec => λ _, on_stop ec
  | send request => λ _, on_send request
  | is_candidates_stale => on_is_candidates_stale
  | is_blocks_stale => on_is_blocks_stale
  | organize message height => on_organize message height
  | unsubscribe => λ _, on_unsubscribe
  | reservation_request => on_request
  | reservation_stopped => on_reservation_stopped
  | reservation_find_height_and_erase h => on_find_height_and_erase h
  | reservation_update_history message => λ _, on_update_history message
  | reservation_expired => on_expired
  | reservation_stop => λ _, on_reservation_stop
  | log l line => λ _, on_log l line
  end.

(** The collaborators: any way of answering the calls, with a state [W]
    of their own. *)
Definition world (W : Type) : Type := ∀ X : Type, call X → W → X * W.

(** Runs a handler: its result, the final state of the collaborators and
    the calls made, in order. *)
Fixpoint run {W A : Type} (env : world W) (p : prog A) (w : W)
  : A * W * list event :=
  match p with
  | Ret a => (a, w, [])
  | Do c k =>
      let (x, w1) := env _ c w in
      let '(a, w2, calls) := run env (k x) w1 in
      (a, w2, observe c x :: calls)
  end.

Definition result {W A : Type} (env : world W) (p : prog A) (w : W) : A :=
  fst (fst (run env p w)).

Definition trace {W A : Type} (env : world W) (p : prog A) (w : W) : list event :=
  snd (run env p w).

(** The kinds of calls the statements ask about. *)
Definition is_stop (e : event) : bool :=
  match e with
  | on_stop _ => true
  | _ => false
  end.

Definition is_organize (e : event) : bool :=
  match e with
  | on_organize _ _ _ => true
  | _ => false
  end.

Definition is_progress (e : event) : bool :=
  match e with
  | on_log info (progress _ _ _ _) => true
  | _ => false
  end.

End protocol_block_in.

(** ** Vocabulary of the statements *)

Module spec.
Import reservations.

(** A slot with the given identifier that was never stopped nor measured
    and holds the given pending entries. *)
Definition slot_holding (slot timeout : N) (pending : list hash_queue.entry)
  : reservation.t :=
  {| reservation.slot_ := slot; reservation.heights_ := pending;
     reservation.rate_ :=
       {| reservation.events := 0; reservation.database := 0;
          reservation.window := 0 |};
     reservation.stopped_ := false; reservation.timeout_ := timeout |}.

(** The entries of [q] dealt to [row] in the first [rounds] rounds of a
    round-robin over [rows] slots: those at the positions
    [row], [rows + row], [2 * rows + row], ... *)
Definition dealt (q : hash_queue.t) (rows rounds row : nat) : list hash_queue.entry :=
  omap (λ round, q !! (round * rows + row)) (seq 0 rounds).

(** The slot objects of a table of [rows] rows after [rounds] rounds. *)
Definition dealt_rows (q : hash_queue.t) (timeout : N) (rows rounds : nat)
  : list reservation.t :=
  (λ row, slot_holding (N.of_nat row) timeout (dealt q rows rounds row)) <$> seq 0 rows.

(** The slot [r] with the entries [es] added to its pending hashes, in
    order. *)
Definition pending_appended (r : reservation.t) (es : list hash_queue.entry)
  : reservation.t :=
  {| reservation.slot_ := reservation.slot_ r;
     reservation.heights_ := reservation.heights_ r ++ es;
     reservation.rate_ := reservation.rate_ r;
     reservation.stopped_ := reservation.stopped_ r;
     reservation.timeout_ := reservation.timeout_ r |}.

(** The rows of the table are in the order of their slot identifiers, as
    [initialize] pushes them and [remove] leaves them. *)
Definition ascending (st : state) : Prop :=
  ∀ i j p q, i < j → table_ st !! i = Some p → table_ st !! j = Some q →
    (reservation.slot (deref st p) < reservation.slot (deref st q))%N.

(** The number of hashes reserved by the rows of the table. *)
Definition reserved (st : state) : N :=
  foldr (λ row total, (reservation.size (deref st row) + total)%N) 0%N (table st).

(** The runs of [handle_receive_block]: the calls made and the result, by
    the point at which the handler returns. *)
Section receive.
Import protocol_block_in.
Context {W : Type} (env : world W) (self : t) (ec : code) (message : block).

Inductive receive_run : list event → bool → Prop :=
| receive_stopped :
    receive_run [on_stopped (Some ec) true] false
| receive_failed :
    is_error ec = true →
    receive_run [on_stopped (Some ec) false; on_log error (receive_failure ec);
                 on_stop ec] false
| receive_without_witness :
    is_error ec = false →
    require_witness_ self && negb (peer_witness_ self) = true →
    receive_run [on_stopped (Some ec) false; on_stop channel_stopped] false
| receive_partitioned :
    is_error ec = false →
    require_witness_ self && negb (peer_witness_ self) = false →
    receive_run [on_stopped (Some ec) false; on_reservation_stopped true;
                 on_log debug restarting_partitioned_slot;
                 on_stop channel_stopped] false
| receive_unrequested :
    is_error ec = false →
    require_witness_ self && negb (peer_witness_ self) = false →
    receive_run [on_stopped (Some ec) false; on_reservation_stopped false;
                 on_find_height_and_erase (hash message) None;
                 on_log debug unrequested_or_partitioned_block;
                 on_stop channel_stopped] false
| receive_corrupted (height : N) (error_code : code) :
    is_error ec = false →
    require_witness_ self && negb (peer_witness_ self) = false →
    is_error error_code = true →
    receive_run [on_stopped (Some ec) false; on_reservation_stopped false;
                 on_find_height_and_erase (hash message) (Some height);
                 on_organize message height error_code;
                 on_log fatal (organize_failure error_code);
                 on_stop error_code] false
| receive_organized (height : N) (stale : bool) (w : W) :
    is_error ec = false →
    require_witness_ self && negb (peer_witness_ self) = false →
    receive_run
      ([on_stopped (Some ec) false; on_reservation_stopped false;
        on_find_height_and_erase (hash message) (Some height);
        on_organize message height success;
        on_update_history message; on_is_blocks_stale stale]
       ++ (if (height mod (if stale then 100 else 1) =? 0)%N
           then [on_log info
                   (progress height (hash message) (transactions message)
                      (N.max (total_inputs message) 1))]
           else [])
       ++ trace env (send_get_blocks self) w) true.

End receive.

End spec.

Module samples.
Import reservations spec.

(** The header at a height; its hash is the height here. *)
Definition header (height : N) : hash_queue.entry :=
  {| hash_queue.hash := height; hash_queue.height := height |}.

(** [count] headers at the heights [first], [first + 1], ... *)
Fixpoint headers_from (first : N) (count : nat) : hash_queue.t :=
  match count with
  | O => []
  | S count => header first :: headers_from (N.succ first) count
  end.

(** A queue of [n] headers at the heights [0 .. n-1]. *)
Definition headers (n : N) : hash_queue.t := headers_from 0 (N.to_nat n).

(** Two rows: slot 0 holds a single hash and slot 1 none.  The table of
    two slots over two headers comes to this state once the protocol of
    slot 1 has received its block. *)
Definition singleton_maximal : state :=
  {| heap := [ slot_holding 0 5 (headers 1); slot_holding 1 5 [] ];
     table_ := [0; 1];
     hashes_ := [];
     timeout_ := 5 |}.

(** Three rows dealt two hashes each, and one header left in the queue. *)
Definition three_rows : state := create [] (headers 7) 5 3.

(** Three rows of which the middle one is idle; the others have counted
    two and four events. *)
Definition measured : state :=
  let sampled := λ slot events,
    {| reservation.slot_ := slot; reservation.heights_ := [];
       reservation.rate_ :=
         {| reservation.events := events; reservation.database := 0;
            reservation.window := 1 |};
       reservation.stopped_ := false; reservation.timeout_ := 5 |} in
  {| heap := [sampled 0%N 2%N; sampled 1%N 0%N; sampled 2%N 4%N];
     table_ := [0; 1; 2];
     hashes_ := [];
     timeout_ := 5 |}.

(** A rate that is the number of events of the sample. *)
Definition events_rate (sample : reservation.rate_sample) : float :=
  of_uint63 (Uint63.of_Z (Z.of_N (reservation.events sample))).

(** Collaborators that give the same answers throughout a run. *)
Record answers : Type := {
  stopped_answer : bool;
  candidates_stale_answer : bool;
  blocks_stale_answer : bool;
  request_answer : protocol_block_in.get_data;
  reservation_stopped_answer : bool;
  find_answer : option N;
  organize_answer : protocol_block_in.code;
  expired_answer : bool
}.

Definition scripted (a : answers) : protocol_block_in.world unit :=
  λ X c w,
    match c in protocol_block_in.call X return X * unit with
    | protocol_block_in.stopped _ => (stopped_answer a, w)
    | protocol_block_in.stop _ => (tt, w)
    | protocol_block_in.send _ => (tt, w)
    | protocol_block_in.is_candidates_stale => (candidates_stale_answer a, w)
    | protocol_block_in.is_blocks_stale => (blocks_stale_answer a, w)
    | protocol_block_in.organize _ _ => (organize_answer a, w)
    | protocol_block_in.unsubscribe => (tt, w)
    | protocol_block_in.reservation_request => (request_answer a, w)
    | protocol_block_in.reservation_stopped => (reservation_stopped_answer a, w)
    | protocol_block_in.reservation_find_height_and_erase _ => (find_answer a, w)
    | protocol_block_in.reservation_update_history _ => (tt, w)
    | protocol_block_in.reservation_expired => (expired_answer a, w)
    | protocol_block_in.reservation_stop => (tt, w)
    | protocol_block_in.log _ _ => (tt, w)
    end.

(** A request for the block with hash 7. *)
Definition one_block : protocol_block_in.get_data :=
  {| protocol_block_in.inventories :=
       [ {| protocol_block_in.type := protocol_block_in.msg_block;
            protocol_block_in.inventory_hash := 7%N |} ] |}.

(** The block with hash 7: three transactions, five inputs. *)
Definition block_7 : protocol_block_in.block :=
  {| protocol_block_in.hash := 7%N;
     protocol_block_in.transactions := 3;
     protocol_block_in.total_inputs := 5 |}.

(** A running channel past the header sync: the slot requests block 7,
    finds it at height 200 when it arrives, and the chain accepts it. *)
Definition healthy : answers :=
  {| stopped_answer := false;
     candidates_stale_answer := false;
     blocks_stale_answer := true;
     request_answer := one_block;
     reservation_stopped_answer := false;
     find_answer := Some 200%N;
     organize_answer := protocol_block_in.success;
     expired_answer := false |}.

(** The same channel, already stopped. *)
Definition halted : answers :=
  {| stopped_answer := true;
     candidates_stale_answer := false;
     blocks_stale_answer := true;
     request_answer := one_block;
     reservation_stopped_answer := false;
     find_answer := Some 200%N;
     organize_answer := protocol_block_in.success;
     expired_answer := false |}.

(** The same channel over a store that fails to organize the block. *)
Definition corrupted : answers :=
  {| stopped_answer := false;
     candidates_stale_answer := false;
     blocks_stale_answer := true;
     request_answer := one_block;
     reservation_stopped_answer := false;
     find_answer := Some 200%N;
     organize_answer := protocol_block_in.failure 42;
     expired_answer := false |}.

(** The same channel with a stalled slot. *)
Definition stalled : answers :=
  {| stopped_answer := false;
     candidates_stale_answer := false;
     blocks_stale_answer := true;
     request_answer := one_block;
     reservation_stopped_answer := false;
     find_answer := Some 200%N;
     organize_answer := protocol_block_in.success;
     expired_answer := true |}.

(** A witness node (services: network and witness) on a peer that serves
    the network only. *)
Definition witness_missing : protocol_block_in.t :=
  protocol_block_in.create 9 1.

(** A witness node on a peer that serves witness data as well. *)
Definition witness_served : protocol_block_in.t :=
  protocol_block_in.create 9 9.

End samples.

(** ** What the collaborators answer *)

Module collaborators.
Import protocol_block_in.

Section asked.
Context {W : Type} (env : world W).

(** The answer the collaborators give to the call [c] when they are in
    the state [w]: whether the protocol is stopped, whether the
    reservation is stopped, what the chain returns, ... *)
Definition answer_to {X : Type} (c : call X) (w : W) : X := fst (env X c w).

(** Their state once they have answered [c]. *)
Definition state_after {X : Type} (c : call X) (w : W) : W := snd (env X c w).

End asked.

End collaborators.

(** ** Vocabulary of the table invariants *)

Module invariants.
Import reservations.

(** All the hashes held by the slot objects, object by object. *)
Definition pending_hashes (st : state) : list hash_queue.entry :=
  concat (reservation.heights_ <$> heap st).

(** No slot holds more hashes than one request may carry. *)
Definition bounded (st : state) : Prop :=
  Forall (λ r, (reservation.size r ≤ max_request_)%N) (heap st).

(** The rows of the table are distinct, live slot objects. *)
Definition well_formed (st : state) : Prop :=
  NoDup (table_ st) ∧ Forall (λ p, p < length (heap st)) (table_ st).

(** The states of a [reservations] object constructed over the queue
    [hashes]: the constructor, then any sequence of [remove] and of
    [populate] on a slot object.  ([import], [rates] and [table] leave
    the state as it is.) *)
Inductive reachable (hashes : hash_queue.t) : state → Prop :=
  | reachable_create (block_timeout_seconds download_connections : N) :
      reachable hashes
        (create [] hashes block_timeout_seconds download_connections)
  | reachable_remove (row : ptr) (st : state) :
      reachable hashes st → reachable hashes (remove row st)
  | reachable_populate (minimal : ptr) (st : state) :
      reachable hashes st → minimal < length (heap st) →
      reachable hashes (fst (populate minimal st)).

End invariants.

(** ** States past the request limit *)

Module edge.
Import reservations spec.

(** One row whose slot holds one hash more than a request may carry, over
    a queue of three more headers. *)
Definition overfull : state :=
  {| heap := [ slot_holding 0 5 (samples.headers 50001) ];
     table_ := [0];
     hashes_ := samples.headers_from 50001 3;
     timeout_ := 5 |}.

End edge.

(** ** The header factory of the tests ([src/test/utility.cpp]) *)

Module test.

Section factory.

(** The header type belongs to the system library: [make previous_hash] is
    [header{ 0, previous_hash, {}, 0, 0, 0, 0 }] and [hash_of] is
    [header::hash]. *)
Context {header : Type}.
Context (make : hash_queue.hash_digest → header).
Context (hash_of : header → hash_queue.hash_digest).

(** [null_hash]: thirty-two zero bytes. *)
Definition null_hash : hash_queue.hash_digest := 0%N.

(** [message_factory(count, hash)]: a headers message of the specified
    size, using the specified previous hash.  The state of the loop is
    the list of elements and [previous_hash]. *)
Definition message_factory_from (count : N) (hash : hash_queue.hash_digest)
  : list header :=
  fst (for_loop count
         (λ _ (c : list header * hash_queue.hash_digest),
            let current_header := make (snd c) in
            (fst c ++ [current_header], hash_of current_header))
         ([], hash)).

(** [message_factory(count)]: starting with a genesis header. *)
Definition message_factory (count : N) : list header :=
  message_factory_from count null_hash.

End factory.

End test.

(** * Properties *)

(** ** The reservation table *)

Import reservations spec.

(** *** Loops *)

Lemma for_loop_counter {S : Type} (n : N) (body : N → S → S) (s : S) :
  fst (N.iter n (λ c : N * S, (N.succ (fst c), body (fst c) (snd c))) (0%N, s)) = n.
Proof.
  induction n as [|n IH] using N.peano_ind; [done|].
  rewrite N.iter_succ. simpl. by rewrite IH.
Qed.

Lemma for_loop_0 {S : Type} (body : N → S → S) (s : S) : for_loop 0 body s = s.
Proof. done. Qed.

Lemma for_loop_succ {S : Type} (n : N) (body : N → S → S) (s : S) :
  for_loop (N.succ n) body s = body n (for_loop n body s).
Proof.
  unfold for_loop. rewrite N.iter_succ. simpl. by rewrite for_loop_counter.
Qed.

Lemma for_loop_const {S : Type} (n : N) (body : S → S) (s : S) :
  for_loop n (λ _, body) s = Nat.iter (N.to_nat n) body s.
Proof.
  induction n as [|n IH] using N.peano_ind; [done|].
  by rewrite for_loop_succ, N2Nat.inj_succ, IH.
Qed.

(** *** [initialize] *)

(** The first loop of [initialize] pushes fresh, empty slots. *)
Lemma push_rows (n : nat) (st : state) :
  for_loop (N.of_nat n)
    (λ row st,
       let (p, st) := make_shared (reservation.make row (timeout_ st)) st in
       push_back p st) st
  = {| heap := heap st ++ dealt_rows [] (timeout_ st) n 0;
       table_ := table_ st ++ seq (length (heap st)) n;
       hashes_ := hashes_ st;
       timeout_ := timeout_ st |}.
Proof.
  induction n as [|n IH].
  - rewrite for_loop_0. destruct st. simpl. by rewrite !app_nil_r.
  - rewrite Nat2N.inj_succ, for_loop_succ, IH.
    unfold make_shared, push_back, set_heap, set_table, dealt_rows. cbn [heap table_ hashes_].
    rewrite !seq_S, fmap_app, !length_app, length_fmap, length_seq, !app_assoc.
    done.
Qed.

Lemma distribute_snd (row : N) (c : hash_queue.entry * state) e rest p :
  hashes_ (snd c) = e :: rest →
  table_ (snd c) !! N.to_nat row = Some p →
  snd (distribute row c) = insert_at p e (set_hashes rest (snd c)).
Proof.
  intros Hq Ht. unfold distribute, dequeue_into. rewrite Hq. simpl.
  by rewrite Ht.
Qed.

(** The inner loop of [initialize], stopped after [j] rows. *)
Lemma deal_prefix (h slots : list reservation.t) (q : hash_queue.t) (tm : N)
    loc (j : nat) :
  j ≤ length slots → j ≤ length q →
  snd (for_loop (N.of_nat j) distribute
         (loc, {| heap := h ++ slots; table_ := seq (length h) (length slots);
                  hashes_ := q; timeout_ := tm |}))
  = {| heap := h ++ zip_with reservation.insert (take j q) (take j slots)
                 ++ drop j slots;
       table_ := seq (length h) (length slots);
       hashes_ := drop j q;
       timeout_ := tm |}.
Proof.
  induction j as [|j IH]; intros Hs Hq.
  - by rewrite for_loop_0.
  - rewrite Nat2N.inj_succ, for_loop_succ.
    destruct (lookup_lt_is_Some_2 q j) as [e He]; [lia|].
    destruct (lookup_lt_is_Some_2 slots j) as [sl Hsl]; [lia|].
    rewrite (distribute_snd _ _ e (drop (S j) q) (length h + j)).
    + rewrite IH by lia. unfold insert_at, set_heap, set_hashes. simpl. f_equal.
      rewrite alter_app_r. f_equal.
      assert (length (zip_with reservation.insert (take j q) (take j slots)) = j) as Hz.
      { rewrite length_zip_with, !length_take. lia. }
      rewrite <- Hz at 1. rewrite <- (Nat.add_0_r (length _)), alter_app_r.
      rewrite (drop_S _ _ _ Hsl). simpl.
      rewrite (take_S_r _ _ _ He), (take_S_r _ _ _ Hsl).
      rewrite zip_with_app by (rewrite !length_take; lia).
      simpl. by rewrite <- app_assoc.
    + rewrite IH by lia. simpl. by apply drop_S.
    + rewrite IH by lia. simpl. rewrite Nat2N.id. by apply lookup_seq_lt.
Qed.

(** One round of the inner loop gives each row the next entry. *)
Lemma deal_round (h slots : list reservation.t) (q : hash_queue.t) c :
  heap (snd c) = h ++ slots →
  table_ (snd c) = seq (length h) (length slots) →
  hashes_ (snd c) = q →
  length slots ≤ length q →
  snd (for_loop (N.of_nat (length slots)) distribute c)
  = {| heap := h ++ zip_with reservation.insert (take (length slots) q) slots;
       table_ := seq (length h) (length slots);
       hashes_ := drop (length slots) q;
       timeout_ := timeout_ (snd c) |}.
Proof.
  destruct c as [loc [hp tb hs tm]]. simpl. intros -> -> -> Hq.
  rewrite deal_prefix by lia.
  by rewrite firstn_all, drop_all, app_nil_r.
Qed.

Lemma dealt_S q rows rounds row e :
  q !! (rounds * rows + row) = Some e →
  dealt q rows (S rounds) row = dealt q rows rounds row ++ [e].
Proof.
  intros He. unfold dealt. rewrite seq_S, omap_app. simpl. by rewrite He.
Qed.

Lemma length_dealt q rows rounds row :
  row < rows → rounds * rows ≤ length q → length (dealt q rows rounds row) = rounds.
Proof.
  intros Hrow. induction rounds as [|b IH]; intros Hq; [done|].
  destruct (lookup_lt_is_Some_2 q (b * rows + row)) as [e He]; [lia|].
  rewrite (dealt_S _ _ _ _ _ He), length_app, IH by lia. simpl. lia.
Qed.

Lemma lookup_dealt q rows rounds row round :
  row < rows → rounds * rows ≤ length q → round < rounds →
  dealt q rows rounds row !! round = q !! (round * rows + row).
Proof.
  intros Hrow. induction rounds as [|b IH]; intros Hq Hround; [lia|].
  destruct (lookup_lt_is_Some_2 q (b * rows + row)) as [e He]; [lia|].
  rewrite (dealt_S _ _ _ _ _ He).
  destruct (decide (round = b)) as [->|Hne].
  - rewrite lookup_app_r; rewrite length_dealt by lia; [|lia].
    by rewrite Nat.sub_diag, He.
  - rewrite lookup_app_l by (rewrite length_dealt by lia; lia).
    apply IH; lia.
Qed.

Lemma length_dealt_rows q timeout rows rounds :
  length (dealt_rows q timeout rows rounds) = rows.
Proof. unfold dealt_rows. by rewrite length_fmap, length_seq. Qed.

Lemma lookup_dealt_rows q timeout rows rounds row :
  row < rows →
  dealt_rows q timeout rows rounds !! row
  = Some (slot_holding (N.of_nat row) timeout (dealt q rows rounds row)).
Proof.
  intros Hrow. unfold dealt_rows.
  by rewrite list_lookup_fmap, lookup_seq_lt.
Qed.

Lemma dealt_rows_S q timeout rows rounds :
  S rounds * rows ≤ length q →
  zip_with reservation.insert (take rows (drop (rounds * rows) q))
    (dealt_rows q timeout rows rounds)
  = dealt_rows q timeout rows (S rounds).
Proof.
  intros Hq. apply list_eq. intros row.
  rewrite lookup_zip_with.
  destruct (decide (row < rows)) as [Hrow|Hrow].
  - rewrite !lookup_dealt_rows by done.
    rewrite lookup_take_lt by done. rewrite lookup_drop.
    destruct (lookup_lt_is_Some_2 q (rounds * rows + row)) as [e He]; [lia|].
    rewrite He. simpl. by rewrite (dealt_S _ _ _ _ _ He).
  - rewrite lookup_take_ge by lia. simpl. symmetry.
    apply lookup_ge_None. rewrite length_dealt_rows. lia.
Qed.

(** The outer loop of [initialize]: [rounds] rounds over [rows] rows. *)
Lemma deal_rounds (h : list reservation.t) (q : hash_queue.t) timeout
    (rows rounds : nat) c :
  heap (snd c) = h ++ dealt_rows q timeout rows 0 →
  table_ (snd c) = seq (length h) rows →
  hashes_ (snd c) = q →
  rounds * rows ≤ length q →
  snd (Nat.iter rounds (for_loop (N.of_nat rows) distribute) c)
  = {| heap := h ++ dealt_rows q timeout rows rounds;
       table_ := seq (length h) rows;
       hashes_ := drop (rounds * rows) q;
       timeout_ := timeout_ (snd c) |}.
Proof.
  intros Hh Ht Hs. induction rounds as [|b IH]; intros Hq.
  - destruct c as [loc [hp tb hs tm]]. simpl in *. by subst.
  - simpl Nat.iter.
    pose proof (length_dealt_rows q timeout rows b) as Hlen.
    rewrite <- Hlen at 1.
    rewrite (deal_round h (dealt_rows q timeout rows b) (drop (b * rows) q)).
    + rewrite IH by lia. cbn [timeout_ snd].
      rewrite Hlen, dealt_rows_S by done.
      rewrite drop_drop. do 2 f_equal. lia.
    + by rewrite IH by lia.
    + rewrite IH by lia. simpl. by rewrite Hlen.
    + by rewrite IH by lia.
    + rewrite Hlen, length_drop. lia.
Qed.

Lemma push_rows_N (n : N) (st : state) :
  for_loop n
    (λ row st,
       let (p, st) := make_shared (reservation.make row (timeout_ st)) st in
       push_back p st) st
  = {| heap := heap st ++ dealt_rows [] (timeout_ st) (N.to_nat n) 0;
       table_ := table_ st ++ seq (length (heap st)) (N.to_nat n);
       hashes_ := hashes_ st;
       timeout_ := timeout_ st |}.
Proof. rewrite <- (N2Nat.id n) at 1. apply push_rows. Qed.

Lemma deal_rounds_N (h : list reservation.t) (q : hash_queue.t) timeout
    (rows rounds : N) c :
  heap (snd c) = h ++ dealt_rows q timeout (N.to_nat rows) 0 →
  table_ (snd c) = seq (length h) (N.to_nat rows) →
  hashes_ (snd c) = q →
  N.to_nat rounds * N.to_nat rows ≤ length q →
  snd (for_loop rounds (λ _ c, for_loop rows distribute c) c)
  = {| heap := h ++ dealt_rows q timeout (N.to_nat rows) (N.to_nat rounds);
       table_ := seq (length h) (N.to_nat rows);
       hashes_ := drop (N.to_nat rounds * N.to_nat rows) q;
       timeout_ := timeout_ (snd c) |}.
Proof.
  intros. rewrite for_loop_const.
  replace (λ c, for_loop rows distribute c)
    with (for_loop (N.of_nat (N.to_nat rows)) distribute)
    by (by rewrite N2Nat.id).
  by apply deal_rounds.
Qed.

(** The cap on the rows keeps [rows * max_request_] within [size_t]. *)
Lemma max_rows_eq : (max_size_t / max_request_ = 368934881474191)%N.
Proof. done. Qed.

Lemma size_mul_rows (rows : N) :
  (rows ≤ max_size_t / max_request_)%N →
  size_mul rows max_request_ = (rows * max_request_)%N.
Proof.
  rewrite max_rows_eq. unfold size_mul, max_request_, max_block_request.
  intros Hrows. apply N.mod_small. lia.
Qed.

(** [initialize] on an empty table, in closed form: the rows and the
    rounds are those the code computes. *)
Lemma initialize_eq (st : state) (size : N) :
  table_ st = [] →
  let blocks := hash_queue.size (hashes_ st) in
  let rows := N.min (N.min (max_size_t / max_request_) size) blocks in
  let allocation := N.min blocks (rows * max_request_) in
  let rounds := (allocation / rows)%N in
  initialize size st
  = {| heap := heap st
         ++ dealt_rows (hashes_ st) (timeout_ st) (N.to_nat rows)
              (N.to_nat rounds);
       table_ := seq (length (heap st)) (N.to_nat rows);
       hashes_ := drop (N.to_nat rounds * N.to_nat rows) (hashes_ st);
       timeout_ := timeout_ st |}.
Proof.
  intros Ht blocks rows allocation rounds. unfold initialize.
  fold blocks. fold rows.
  destruct (N.eqb_spec rows 0) as [H0|H0].
  - subst rounds. rewrite H0. destruct st; simpl in *; subst.
    rewrite Nat.mul_0_r. unfold dealt_rows. simpl. by rewrite app_nil_r.
  - rewrite size_mul_rows by (subst rows; lia).
    fold allocation. fold rounds.
    rewrite push_rows_N, Ht. simpl app.
    rewrite (deal_rounds_N (heap st) (hashes_ st) (timeout_ st)); try done.
    assert (rounds * rows ≤ blocks)%N as Hle.
    { subst rounds. transitivity allocation; [|subst allocation; lia].
      rewrite N.mul_comm. apply N.Div0.mul_div_le. }
    subst blocks. unfold hash_queue.size in Hle. lia.
Qed.

Lemma reserved_uniform (st : state) (n : N) :
  (∀ row, row ∈ table_ st → reservation.size (deref st row) = n) →
  reserved st = (N.of_nat (length (table_ st)) * n)%N.
Proof.
  unfold reserved, table. induction (table_ st) as [|row rows IH]; intros Hall.
  - done.
  - simpl foldr. rewrite IH by (intros; apply Hall; by apply list_elem_of_further).
    rewrite (Hall row) by apply list_elem_of_here.
    rewrite length_cons. lia.
Qed.

Lemma deref_lookup (st : state) (p : ptr) (r : reservation.t) :
  heap st !! p = Some r → deref st p = r.
Proof. unfold deref. by intros ->. Qed.

(** C1 (amended).  On an empty table over a queue [q] of [M] entries,
    [initialize K] creates exactly [K' = min (K, SIZE_MAX / max_request, M)]
    slots, numbered [0 .. K'-1] in table order, and leaves the slot objects
    that existed untouched; when [K' = 0] the state is unchanged.  With
    [rounds = min (M, K' * max_request) / K'], every slot receives [rounds]
    entries, the [i]-th entry of the queue going to slot [i mod K'] at
    position [i / K'] for each [i < rounds * K']; the queue keeps the
    entries from [rounds * K'] on; and the slot sizes plus the size of the
    remaining queue add up to [M]. *)
Theorem initialize_deals_round_robin
    (objects : list reservation.t) (q : hash_queue.t) (timeout K : N) :
  let M := hash_queue.size q in
  let K' := N.min (N.min K (max_size_t / max_request_)) M in
  let rounds := (N.min M (K' * max_request_) / K')%N in
  let before :=
    {| heap := objects; table_ := []; hashes_ := q; timeout_ := timeout |} in
  let st := initialize K before in
  table_ st = seq (length objects) (N.to_nat K')
  ∧ length (heap st) = length objects + N.to_nat K'
  ∧ take (length objects) (heap st) = objects
  ∧ (K' = 0%N → st = before)
  ∧ (∀ row, row < N.to_nat K' →
       ∃ r, heap st !! (length objects + row) = Some r
            ∧ reservation.slot r = N.of_nat row
            ∧ reservation.size r = rounds)
  ∧ (∀ i, i < N.to_nat (rounds * K') →
       ∃ r, heap st !! (length objects + i mod N.to_nat K') = Some r
            ∧ reservation.heights_ r !! (i / N.to_nat K') = q !! i)
  ∧ hashes_ st = drop (N.to_nat (rounds * K')) q
  ∧ (reserved st + hash_queue.size (hashes_ st) = M)%N.
Proof.
  intros M K' rounds before st.
  assert (st = {| heap := objects
                    ++ dealt_rows q timeout (N.to_nat K') (N.to_nat rounds);
                  table_ := seq (length objects) (N.to_nat K');
                  hashes_ := drop (N.to_nat rounds * N.to_nat K') q;
                  timeout_ := timeout |}) as Hst.
  { subst st. rewrite initialize_eq by done. simpl.
    replace (N.min (N.min (max_size_t / max_request_) K) (hash_queue.size q))
      with K' by (subst K' M; lia).
    done. }
  assert (N.to_nat rounds * N.to_nat K' ≤ length q) as Hfit.
  { assert (rounds * K' ≤ M)%N as Hle.
    { subst rounds. rewrite N.mul_comm.
      etransitivity; [apply N.Div0.mul_div_le|]. lia. }
    subst M. unfold hash_queue.size in Hle. lia. }
  assert (∀ row, row < N.to_nat K' →
    heap st !! (length objects + row)
    = Some (slot_holding (N.of_nat row) timeout
              (dealt q (N.to_nat K') (N.to_nat rounds) row))) as Hrow.
  { intros row Hlt. rewrite Hst. simpl.
    rewrite lookup_app_r by lia.
    replace (length objects + row - length objects) with row by lia.
    by apply lookup_dealt_rows. }
  split_and!.
  - by rewrite Hst.
  - rewrite Hst. simpl. by rewrite length_app, length_dealt_rows.
  - rewrite Hst. simpl. by rewrite take_app_length.
  - intros HK. subst st. unfold initialize.
    replace (N.min (N.min (max_size_t / max_request_) K)
               (hash_queue.size (hashes_ before))) with K'
      by (subst K' M before; simpl; lia).
    by rewrite HK.
  - intros row Hlt. eexists. split; [by apply Hrow|]. split; [done|].
    unfold reservation.size. simpl. rewrite length_dealt by lia. lia.
  - intros i Hi.
    assert (N.to_nat K' ≠ 0) as HK by lia.
    pose proof (Nat.mod_upper_bound i _ HK) as Hmod.
    eexists. split; [by apply Hrow|]. simpl.
    rewrite lookup_dealt; [|lia|lia|].
    + f_equal. rewrite (Nat.div_mod_eq i (N.to_nat K')) at 3. lia.
    + apply Nat.Div0.div_lt_upper_bound. lia.
  - rewrite Hst. simpl. f_equal. lia.
  - rewrite (reserved_uniform st rounds).
    + rewrite Hst. simpl. rewrite length_seq.
      unfold hash_queue.size. rewrite length_drop.
      subst M. unfold hash_queue.size. lia.
    + intros row Hin. rewrite Hst in Hin. simpl in Hin.
      apply elem_of_seq in Hin.
      rewrite (deref_lookup st row
                 (slot_holding (N.of_nat (row - length objects)) timeout
                    (dealt q (N.to_nat K') (N.to_nat rounds) (row - length objects)))).
      * unfold reservation.size. simpl. rewrite length_dealt by lia. lia.
      * rewrite <- Hrow by lia. f_equal. lia.
Qed.

Example initialize_three_rows :
  samples.three_rows
  = {| heap := [ slot_holding 0 5 [samples.header 0; samples.header 3];
                 slot_holding 1 5 [samples.header 1; samples.header 4];
                 slot_holding 2 5 [samples.header 2; samples.header 5] ];
       table_ := [0; 1; 2];
       hashes_ := [samples.header 6];
       timeout_ := 5 |}.
Proof. reflexivity. Qed.

(** C1, as stated, fails for one slot over 50001 headers: the claim
    distributes [(M / K') * K' = 50001] entries and leaves the queue
    empty, whereas [initialize] gives the slot 50000 entries and leaves
    the header at height 50000 in the queue. *)
Lemma initialize_full_rounds_counterexample :
  let q := samples.headers 50001 in
  let M := hash_queue.size q in
  let K' := N.min (N.min 1 (max_size_t / max_request_)) M in
  hashes_ (initialize 1 {| heap := []; table_ := []; hashes_ := q;
                           timeout_ := 5 |})
  = [samples.header 50000]
  ∧ drop (N.to_nat (M / K' * K')) q = [].
Proof.
  intros q M K'. split.
  - rewrite initialize_eq by reflexivity. cbn [hashes_]. vm_compute. reflexivity.
  - vm_compute. reflexivity.
Qed.

(** *** [reserve] and [populate] *)

Lemma take_one_snd (p : ptr) (c : hash_queue.entry * state) e rest :
  hashes_ (snd c) = e :: rest →
  snd (take_one p c) = insert_at p e (set_hashes rest (snd c)).
Proof.
  intros Hq. unfold take_one, dequeue_into. by rewrite Hq.
Qed.

Lemma insert_all (r : reservation.t) (es : list hash_queue.entry) :
  foldl (λ r e, reservation.insert e r) r es = pending_appended r es.
Proof.
  revert r. induction es as [|e es IH]; intros r.
  - destruct r. unfold pending_appended. simpl. by rewrite app_nil_r.
  - simpl. rewrite IH. unfold pending_appended, reservation.insert. simpl.
    by rewrite <- app_assoc.
Qed.

Lemma reserve_prefix (p : ptr) (r : reservation.t) (st : state) loc (j : nat) :
  heap st !! p = Some r →
  j ≤ length (hashes_ st) →
  snd (Nat.iter j (take_one p) (loc, st))
  = {| heap := <[p := pending_appended r (take j (hashes_ st))]> (heap st);
       table_ := table_ st;
       hashes_ := drop j (hashes_ st);
       timeout_ := timeout_ st |}.
Proof.
  intros Hp. induction j as [|j IH]; intros Hq.
  - simpl. destruct st as [h tb q tm]. simpl in *. f_equal.
    symmetry. apply list_insert_id.
    replace (pending_appended r (take 0 q)) with r; [exact Hp|].
    destruct r. unfold pending_appended. simpl. by rewrite app_nil_r.
  - simpl Nat.iter.
    destruct (lookup_lt_is_Some_2 (hashes_ st) j) as [e He]; [lia|].
    rewrite (take_one_snd _ _ e (drop (S j) (hashes_ st))).
    + rewrite IH by lia. unfold insert_at, set_heap, set_hashes. simpl.
      f_equal. apply list_eq. intros i.
      destruct (decide (i = p)) as [->|Hne].
      * rewrite list_lookup_alter_eq.
        rewrite !list_lookup_insert_eq by (by eapply lookup_lt_Some).
        simpl. f_equal. rewrite (take_S_r _ _ _ He).
        unfold pending_appended, reservation.insert. simpl.
        by rewrite app_assoc.
      * rewrite list_lookup_alter_ne by done.
        by rewrite !list_lookup_insert_ne by done.
    + rewrite IH by lia. simpl. by apply drop_S.
Qed.

Lemma size_sub_small (a b : N) :
  (b ≤ a)%N → (a < 2 ^ 64)%N → size_sub a b = (a - b)%N.
Proof.
  intros Hle Hlt. unfold size_sub.
  rewrite Z.mod_small by lia. lia.
Qed.

Lemma reserve_eq (minimal : ptr) (r : reservation.t) (st : state) :
  heap st !! minimal = Some r →
  (reservation.size r ≤ max_request_)%N →
  let allocation :=
    N.to_nat (N.min (hash_queue.size (hashes_ st))
                (max_request_ - reservation.size r)) in
  let after :=
    {| heap := <[minimal := pending_appended r (take allocation (hashes_ st))]>
                 (heap st);
       table_ := table_ st;
       hashes_ := drop allocation (hashes_ st);
       timeout_ := timeout_ st |} in
  reserve minimal st = (after, negb (reservation.empty (deref after minimal))).
Proof.
  intros Hp Hsize allocation after. unfold reserve.
  rewrite (deref_lookup _ _ _ Hp).
  rewrite size_sub_small by (done || (unfold max_request_, max_block_request; lia)).
  rewrite for_loop_const. fold allocation.
  rewrite (reserve_prefix _ r) by (done || (subst allocation; unfold hash_queue.size; lia)).
  done.
Qed.

(** *** [find_maximal] and [partition] *)

Lemma foldl_first_greatest {A : Type} (f : A → N) (first : A) (rest : list A) :
  let m := foldl (λ largest x, if (f largest <? f x)%N then x else largest)
             first rest in
  ∃ i, (first :: rest) !! i = Some m
       ∧ (∀ y, y ∈ first :: rest → (f y ≤ f m)%N)
       ∧ (∀ j y, j < i → (first :: rest) !! j = Some y → (f y < f m)%N).
Proof.
  induction rest as [|x rest IH] using rev_ind.
  - exists 0. simpl. split_and!; [done| |lia].
    intros y Hy. apply list_elem_of_singleton in Hy. subst. lia.
  - simpl in IH. destruct IH as (i & Hi & Hall & Hbefore).
    rewrite foldl_app. simpl.
    set (m := foldl _ first rest) in *.
    destruct (N.ltb_spec (f m) (f x)) as [Hlt|Hge].
    + exists (length (first :: rest)). split_and!.
      * rewrite app_comm_cons, lookup_app_r by lia.
        by rewrite Nat.sub_diag.
      * intros y Hy. rewrite app_comm_cons in Hy.
        apply elem_of_app in Hy as [Hy|Hy].
        -- specialize (Hall y Hy). lia.
        -- apply list_elem_of_singleton in Hy. subst. lia.
      * intros j y Hj Hy. rewrite app_comm_cons, lookup_app_l in Hy by done.
        assert (y ∈ first :: rest) as Hin by (by eapply list_elem_of_lookup_2).
        specialize (Hall y Hin). lia.
    + exists i. split_and!.
      * rewrite app_comm_cons, lookup_app_l; [done|].
        by eapply lookup_lt_Some.
      * intros y Hy. rewrite app_comm_cons in Hy.
        apply elem_of_app in Hy as [Hy|Hy]; [by apply Hall|].
        apply list_elem_of_singleton in Hy. by subst.
      * intros j y Hj Hy. apply (Hbefore j y Hj).
        rewrite app_comm_cons, lookup_app_l in Hy; [done|].
        apply lookup_lt_Some in Hi. lia.
Qed.

Lemma find_maximal_None (st : state) :
  find_maximal st = None ↔ table_ st = [].
Proof.
  unfold find_maximal. destruct (table_ st); simpl; split; done.
Qed.

Lemma find_maximal_Some (st : state) (maximal : ptr) :
  find_maximal st = Some maximal →
  ∃ i, table_ st !! i = Some maximal
       ∧ (∀ row, row ∈ table_ st →
            (reservation.size (deref st row) ≤ reservation.size (deref st maximal))%N)
       ∧ (∀ j row, j < i → table_ st !! j = Some row →
            (reservation.size (deref st row) < reservation.size (deref st maximal))%N).
Proof.
  unfold find_maximal. destruct (table_ st) as [|first rest]; [done|].
  unfold max_element. intros [= <-].
  apply (foldl_first_greatest (λ row, reservation.size (deref st row))).
Qed.

Lemma empty_heights (r : reservation.t) :
  reservation.empty r = bool_decide (reservation.heights_ r = []).
Proof.
  unfold reservation.empty, reservation.size.
  destruct (reservation.heights_ r); done.
Qed.

Lemma partition_rows_minimal (maximal minimal : ptr) (st : state) m :
  heap st !! minimal = Some m →
  maximal ≠ minimal →
  let donor := deref st maximal in
  let moved := take ((length (reservation.heights_ donor) + 1) / 2)
                 (reservation.heights_ donor) in
  deref (fst (partition_rows maximal minimal st)) minimal = pending_appended m moved
  ∧ snd (partition_rows maximal minimal st) = bool_decide (moved ≠ []).
Proof.
  intros Hm Hne donor moved. unfold partition_rows, reservation.partition.
  fold donor. fold moved. simpl. split; [|done].
  unfold deref at 1. simpl.
  rewrite list_lookup_insert_eq.
  - simpl. rewrite insert_all. by rewrite (deref_lookup _ _ _ Hm).
  - rewrite length_insert. by eapply lookup_lt_Some.
Qed.

Lemma partition_rows_maximal (maximal minimal : ptr) (st : state) d :
  heap st !! maximal = Some d →
  maximal ≠ minimal →
  reservation.heights_ (deref (fst (partition_rows maximal minimal st)) maximal)
  = drop ((length (reservation.heights_ d) + 1) / 2) (reservation.heights_ d)
  ∧ reservation.stopped (deref (fst (partition_rows maximal minimal st)) maximal)
    = true.
Proof.
  intros Hd Hne. unfold partition_rows, reservation.partition.
  rewrite (deref_lookup _ _ _ Hd). simpl.
  unfold deref. simpl.
  rewrite list_lookup_insert_ne by done.
  rewrite list_lookup_insert_eq by (by eapply lookup_lt_Some).
  done.
Qed.

Lemma partition_empty_minimal (minimal : ptr) (st : state) m :
  heap st !! minimal = Some m →
  reservation.heights_ m = [] →
  snd (partition minimal st)
  = negb (reservation.empty (deref (fst (partition minimal st)) minimal)).
Proof.
  intros Hm Hempty. unfold partition.
  assert (reservation.empty (deref st minimal) = true) as Hst.
  { rewrite (deref_lookup _ _ _ Hm), empty_heights, Hempty. done. }
  destruct (find_maximal st) as [maximal|]; [|simpl; by rewrite Hst].
  destruct (decide (maximal ≠ minimal)) as [Hne|_]; [|simpl; by rewrite Hst].
  destruct (partition_rows_minimal maximal minimal st m Hm Hne) as [-> ->].
  rewrite empty_heights. unfold pending_appended. simpl. rewrite Hempty. simpl.
  by destruct (take _ _).
Qed.

(** C2.  For a slot [r] of at most [max_request] pending hashes,
    [populate] first runs [reserve], which moves exactly
    [min (HashQueue.size, max_request - r.size)] entries from the front of
    the queue to the end of the slot's pending hashes, in queue order;
    [partition] is attempted only when the slot is still empty after
    [reserve]; and [populate] returns [true] exactly when the slot ends
    with at least one pending hash. *)
Theorem populate_reserves_before_partitioning
    (st : state) (minimal : ptr) (r : reservation.t) :
  heap st !! minimal = Some r →
  (reservation.size r ≤ max_request_)%N →
  let allocation :=
    N.to_nat (N.min (hash_queue.size (hashes_ st))
                (max_request_ - reservation.size r)) in
  let reserved :=
    {| heap := <[minimal := pending_appended r (take allocation (hashes_ st))]>
                 (heap st);
       table_ := table_ st;
       hashes_ := drop allocation (hashes_ st);
       timeout_ := timeout_ st |} in
  reserve minimal st
    = (reserved, negb (reservation.empty (deref reserved minimal)))
  ∧ populate minimal st
    = (if reservation.empty (deref reserved minimal)
       then partition minimal reserved else (reserved, true))
  ∧ (snd (populate minimal st) = true
     ↔ reservation.empty (deref (fst (populate minimal st)) minimal) = false).
Proof.
  intros Hp Hsize allocation reserved.
  pose proof (reserve_eq minimal r st Hp Hsize) as Hreserve.
  cbv zeta in Hreserve. fold allocation in Hreserve. fold reserved in Hreserve.
  assert (populate minimal st
          = (if reservation.empty (deref reserved minimal)
             then partition minimal reserved else (reserved, true))) as Hpop.
  { unfold populate. rewrite Hreserve.
    by destruct (reservation.empty (deref reserved minimal)). }
  split_and!; [done|done|].
  rewrite Hpop.
  destruct (reservation.empty (deref reserved minimal)) eqn:Hempty; [|done].
  assert (heap reserved !! minimal
          = Some (pending_appended r (take allocation (hashes_ st)))) as Hm.
  { subst reserved. simpl. apply list_lookup_insert_eq. by eapply lookup_lt_Some. }
  rewrite (partition_empty_minimal minimal reserved _ Hm).
  - apply negb_true_iff.
  - rewrite (deref_lookup _ _ _ Hm), empty_heights in Hempty.
    by apply bool_decide_eq_true in Hempty.
Qed.

(** C2 at the middle row of three rows over seven headers: the header
    left in the queue is reserved and [populate] returns [true]. *)
Lemma populate_reserves_before_partitioning_witness :
  let st := samples.three_rows in
  let r := deref st 1 in
  heap st !! 1 = Some r
  ∧ (reservation.size r ≤ max_request_)%N
  ∧ reserve 1 st
    = ({| heap := <[1 := pending_appended r (samples.headers_from 6 1)]> (heap st);
          table_ := [0; 1; 2]; hashes_ := []; timeout_ := 5 |}, true)
  ∧ snd (populate 1 st) = true.
Proof.
  intros st r.
  assert (heap st !! 1 = Some r) as Hp by reflexivity.
  assert (reservation.size r ≤ max_request_)%N as Hsize
    by (vm_compute; discriminate).
  destruct (populate_reserves_before_partitioning st 1 r Hp Hsize)
    as (Hreserve & Hpopulate & _).
  split_and!; [done|done| |].
  - rewrite Hreserve. reflexivity.
  - rewrite Hpopulate. reflexivity.
Defined.

(** C3 (amended).  On a table in slot order, [partition s] takes as donor
    the row found by [find_maximal]: a row of greatest size and, among
    those, of lowest slot identifier.  It hands over to
    [maximal->partition(s)] whenever the table is not empty and the donor
    is not [s], whatever the donor's size; a donor that holds a single
    hash gives it to [s], is left empty, and [partition] returns
    [true]. *)
Theorem partition_takes_from_first_largest (st : state) (minimal : ptr) :
  ascending st →
  is_Some (heap st !! minimal) →
  match find_maximal st with
  | None => table_ st = [] ∧ partition minimal st = (st, false)
  | Some maximal =>
      maximal ∈ table_ st
      ∧ (∀ row, row ∈ table_ st →
           (reservation.size (deref st row) ≤ reservation.size (deref st maximal))%N)
      ∧ (∀ row, row ∈ table_ st →
           reservation.size (deref st row) = reservation.size (deref st maximal) →
           (reservation.slot (deref st maximal) ≤ reservation.slot (deref st row))%N)
      ∧ partition minimal st
        = (if decide (maximal = minimal) then (st, false)
           else partition_rows maximal minimal st)
      ∧ (maximal ≠ minimal →
         reservation.size (deref st maximal) = 1%N →
         let after := fst (partition minimal st) in
         snd (partition minimal st) = true
         ∧ reservation.heights_ (deref after maximal) = []
         ∧ reservation.heights_ (deref after minimal)
           = reservation.heights_ (deref st minimal)
               ++ reservation.heights_ (deref st maximal))
  end.
Proof.
  intros Hasc [m Hm].
  destruct (find_maximal st) as [maximal|] eqn:Hmax.
  - destruct (find_maximal_Some st maximal Hmax) as (i & Hi & Hall & Hbefore).
    assert (partition minimal st
            = (if decide (maximal = minimal) then (st, false)
               else partition_rows maximal minimal st)) as Hpart.
    { unfold partition. rewrite Hmax.
      destruct (decide (maximal ≠ minimal)), (decide (maximal = minimal)); done. }
    split_and!; [by eapply list_elem_of_lookup_2|done| |done|].
    + intros row Hrow Hsize.
      apply list_elem_of_lookup in Hrow as [j Hj].
      destruct (Nat.lt_trichotomy j i) as [Hlt|[->|Hgt]].
      * specialize (Hbefore j row Hlt Hj). lia.
      * rewrite Hi in Hj. injection Hj as ->. lia.
      * specialize (Hasc i j maximal row Hgt Hi Hj). lia.
    + intros Hne Hone after. subst after. rewrite Hpart.
      destruct (decide (maximal = minimal)) as [|_]; [done|].
      assert (∃ d, heap st !! maximal = Some d) as [d Hd].
      { unfold deref in Hone. destruct (heap st !! maximal) as [d|]; [by exists d|].
        simpl in Hone. discriminate. }
      rewrite (deref_lookup _ _ _ Hd) in Hone |- *.
      assert (∃ e, reservation.heights_ d = [e]) as [e He].
      { unfold reservation.size in Hone.
        destruct (reservation.heights_ d) as [|e [|e' es]]; simpl in Hone;
          [lia|by exists e|lia]. }
      destruct (partition_rows_minimal maximal minimal st m Hm Hne) as [Hafter Hflag].
      destruct (partition_rows_maximal maximal minimal st d Hd Hne) as [Hdonor _].
      rewrite (deref_lookup _ _ _ Hd), He in Hafter, Hflag.
      rewrite He in Hdonor.
      change ((length [e] + 1) / 2) with 1 in Hafter, Hflag, Hdonor.
      rewrite Hflag, Hdonor, Hafter, (deref_lookup _ _ _ Hm), He. done.
  - apply find_maximal_None in Hmax.
    split; [done|]. unfold partition.
    by rewrite (proj2 (find_maximal_None st) Hmax).
Qed.

(** The rows of the sample table are in slot order. *)
Lemma ascending_singleton_maximal : ascending samples.singleton_maximal.
Proof.
  intros i j p q Hlt Hp Hq.
  destruct i as [|[|i]]; destruct j as [|[|j]]; simpl in Hp, Hq;
    try lia; try discriminate.
  injection Hp as <-. injection Hq as <-. vm_compute. reflexivity.
Defined.

(** C3 (amended) on the sample table: the donor is row 0. *)
Lemma partition_takes_from_first_largest_witness :
  let st := samples.singleton_maximal in
  ascending st
  ∧ is_Some (heap st !! 1)
  ∧ find_maximal st = Some 0
  ∧ partition 1 st = partition_rows 0 1 st.
Proof.
  intros st.
  assert (ascending st) as Hasc by apply ascending_singleton_maximal.
  assert (is_Some (heap st !! 1)) as Hm by (eexists; reflexivity).
  pose proof (partition_takes_from_first_largest st 1 Hasc Hm) as H.
  change (find_maximal st) with (Some 0) in H.
  destruct H as (_ & _ & _ & Hpart & _).
  split_and!; [done|done|reflexivity|exact Hpart].
Defined.

(** C3, as stated, fails when the maximal row holds a single hash:
    [partition] returns [true] and the hash moves to the empty row. *)
Lemma partition_singleton_maximal_counterexample :
  let st := samples.singleton_maximal in
  let st' := fst (partition 1 st) in
  find_maximal st = Some 0
  ∧ reservation.size (deref st 0) = 1%N
  ∧ snd (partition 1 st) = true
  ∧ reservation.heights_ (deref st' 0) = []
  ∧ reservation.heights_ (deref st' 1) = reservation.heights_ (deref st 0).
Proof. vm_compute. done. Qed.

(** The slot order is that of the tables [initialize] builds, and
    [remove] keeps it. *)
Lemma initialize_ascending (objects : list reservation.t) (q : hash_queue.t)
    (timeout K : N) :
  ascending (initialize K {| heap := objects; table_ := []; hashes_ := q;
                             timeout_ := timeout |}).
Proof.
  rewrite initialize_eq by done. cbn [heap table_ hashes_].
  set (rows := N.to_nat _). set (rounds := N.to_nat _).
  intros i j p p' Hlt Hp Hp'. cbn [table_] in Hp, Hp'.
  pose proof (lookup_lt_Some _ _ _ Hp) as Hi.
  pose proof (lookup_lt_Some _ _ _ Hp') as Hj.
  rewrite length_seq in Hi, Hj.
  rewrite lookup_seq_lt in Hp, Hp' by done.
  injection Hp as <-. injection Hp' as <-.
  unfold deref. cbn [heap].
  rewrite !lookup_app_r by lia.
  replace (length objects + i - length objects) with i by lia.
  replace (length objects + j - length objects) with j by lia.
  rewrite !lookup_dealt_rows by done. simpl. lia.
Qed.

Lemma remove_ascending (st : state) (row : ptr) :
  ascending st → ascending (remove row st).
Proof.
  intros Hasc. unfold remove.
  destruct (find row (table_ st)) as [it|]; [|done].
  intros i j p p' Hlt Hp Hp'. cbn [table_ set_table] in Hp, Hp'.
  unfold deref. cbn [heap set_table].
  destruct (decide (i < it)) as [Hi|Hi], (decide (j < it)) as [Hj|Hj].
  - rewrite list_lookup_delete_lt in Hp, Hp' by done. by apply (Hasc i j).
  - rewrite list_lookup_delete_lt in Hp by done.
    rewrite list_lookup_delete_ge in Hp' by lia. apply (Hasc i (S j)); [lia|done..].
  - lia.
  - rewrite list_lookup_delete_ge in Hp, Hp' by lia.
    apply (Hasc (S i) (S j)); [lia|done..].
Qed.

(** [populate] moves hashes between the queue and the slots: it changes
    neither the table nor the identifier of a slot. *)
Lemma slot_pending_inserted (r : reservation.t) (es : list hash_queue.entry) :
  reservation.slot (foldl (λ r e, reservation.insert e r) r es) = reservation.slot r.
Proof. by rewrite insert_all. Qed.

Lemma slot_deref_alter (f : reservation.t → reservation.t) (p p' : ptr) (st : state) :
  (∀ r, reservation.slot (f r) = reservation.slot r) →
  reservation.slot (deref (set_heap (alter f p (heap st)) st) p')
  = reservation.slot (deref st p').
Proof.
  intros Hf. unfold deref. cbn [heap set_heap].
  destruct (decide (p = p')) as [->|Hne].
  - rewrite list_lookup_alter_eq.
    destruct (heap st !! p'); simpl; [apply Hf|done].
  - by rewrite list_lookup_alter_ne.
Qed.

Lemma slot_deref_insert (r : reservation.t) (p p' : ptr) (st : state) :
  reservation.slot r = reservation.slot (deref st p) →
  reservation.slot (deref (set_heap (<[p := r]> (heap st)) st) p')
  = reservation.slot (deref st p').
Proof.
  intros Hr. unfold deref in *. cbn [heap set_heap].
  destruct (decide (p = p')) as [->|Hne].
  - destruct (heap st !! p') as [r'|] eqn:Hp.
    + rewrite list_lookup_insert_eq by (by eapply lookup_lt_Some). done.
    + rewrite list_insert_ge by (by apply lookup_ge_None). by rewrite Hp.
  - by rewrite list_lookup_insert_ne.
Qed.

Lemma take_one_slots (minimal : ptr) (c : hash_queue.entry * state) :
  table_ (snd (take_one minimal c)) = table_ (snd c)
  ∧ ∀ p, reservation.slot (deref (snd (take_one minimal c)) p)
         = reservation.slot (deref (snd c) p).
Proof.
  unfold take_one, dequeue_into, insert_at.
  destruct (hash_queue.dequeue (hashes_ (snd c))) as [[e rest]|];
    cbn [fst snd]; (split; [done|]); intros p.
  - by rewrite (slot_deref_alter _ minimal p (set_hashes rest (snd c))).
  - by rewrite slot_deref_alter.
Qed.

Lemma reserve_slots (minimal : ptr) (st : state) :
  table_ (fst (reserve minimal st)) = table_ st
  ∧ ∀ p, reservation.slot (deref (fst (reserve minimal st)) p)
         = reservation.slot (deref st p).
Proof.
  unfold reserve. cbn [fst]. rewrite for_loop_const.
  induction (N.to_nat _) as [|n [IHt IHs]]; [done|].
  simpl Nat.iter.
  destruct (take_one_slots minimal (Nat.iter n (take_one minimal) (indeterminate, st)))
    as [Ht Hs].
  split; [by rewrite Ht|]. intros p. by rewrite Hs.
Qed.

Lemma partition_slots (minimal : ptr) (st : state) :
  table_ (fst (partition minimal st)) = table_ st
  ∧ ∀ p, reservation.slot (deref (fst (partition minimal st)) p)
         = reservation.slot (deref st p).
Proof.
  unfold partition.
  destruct (find_maximal st) as [maximal|]; [|done].
  destruct (decide (maximal ≠ minimal)) as [Hne|]; [|done].
  unfold partition_rows, reservation.partition. cbn [fst].
  split; [done|]. intros p.
  set (self := {| reservation.slot_ := _ |}).
  set (other := foldl _ _ _).
  change (set_heap (<[minimal:=other]> (<[maximal:=self]> (heap st))) st)
    with (set_heap (<[minimal:=other]>
                      (heap (set_heap (<[maximal:=self]> (heap st)) st)))
            (set_heap (<[maximal:=self]> (heap st)) st)).
  rewrite slot_deref_insert.
  - by apply slot_deref_insert.
  - subst other. rewrite slot_pending_inserted. symmetry.
    by apply slot_deref_insert.
Qed.

Lemma populate_ascending (st : state) (minimal : ptr) :
  ascending st → ascending (fst (populate minimal st)).
Proof.
  intros Hasc.
  assert (table_ (fst (populate minimal st)) = table_ st
          ∧ ∀ p, reservation.slot (deref (fst (populate minimal st)) p)
                 = reservation.slot (deref st p)) as [Ht Hs].
  { unfold populate.
    destruct (reserve_slots minimal st) as [Ht Hs].
    destruct (reserve minimal st) as [st1 reserved]. cbn [fst] in Ht, Hs.
    destruct reserved; cbn [fst]; [done|].
    destruct (partition_slots minimal st1) as [Ht' Hs'].
    split; [by rewrite Ht'|]. intros p. by rewrite Hs'. }
  intros i j p p' Hlt Hp Hp'. rewrite Ht in Hp, Hp'. rewrite !Hs.
  by apply (Hasc i j).
Qed.

(** *** [remove] *)

Lemma find_None (row : ptr) (l : list ptr) : find row l = None ↔ row ∉ l.
Proof.
  induction l as [|p l IH]; simpl.
  - split; [intros _; apply not_elem_of_nil|done].
  - rewrite not_elem_of_cons. destruct (decide (p = row)) as [->|Hne].
    + split; [done|]. by intros [? _].
    + rewrite fmap_None, IH. split; [by intros ?|by intros [_ ?]].
Qed.

Lemma find_Some (row : ptr) (l : list ptr) (i : nat) :
  find row l = Some i → l !! i = Some row ∧ row ∉ take i l.
Proof.
  revert i. induction l as [|p l IH]; intros i; simpl; [done|].
  destruct (decide (p = row)) as [->|Hne].
  - intros [= <-]. split; [done|]. apply not_elem_of_nil.
  - intros Hi. apply fmap_Some in Hi as (j & Hj & ->).
    destruct (IH j Hj) as [Hrow Hbefore]. split; [done|].
    simpl. rewrite not_elem_of_cons. split; [by intros ->|done].
Qed.

Example remove_middle_row :
  table_ (remove 1 samples.three_rows) = [0; 2]
  ∧ remove 3 samples.three_rows = samples.three_rows.
Proof. split; reflexivity. Qed.

(** C10.  [remove row] changes neither the slot objects nor the queue;
    it leaves the table as it is when [row] is not in it, and otherwise
    erases the first occurrence of [row] and keeps every other row, in
    order. *)
Theorem remove_erases_only_the_row (st : state) (row : ptr) :
  heap (remove row st) = heap st
  ∧ hashes_ (remove row st) = hashes_ st
  ∧ (row ∉ table_ st → remove row st = st)
  ∧ (row ∈ table_ st →
     ∃ front back,
       table_ st = front ++ row :: back
       ∧ (row ∉ front)
       ∧ table_ (remove row st) = front ++ back).
Proof.
  unfold remove. destruct (find row (table_ st)) as [i|] eqn:Hfind.
  - apply find_Some in Hfind as [Hi Hbefore].
    split_and!; [done|done| |].
    + intros Hnot. exfalso. apply Hnot. by eapply list_elem_of_lookup_2.
    + intros _. exists (take i (table_ st)), (drop (S i) (table_ st)).
      split_and!; [|done|].
      * symmetry. by apply take_drop_middle.
      * simpl. apply delete_take_drop.
  - apply find_None in Hfind. split_and!; done.
Qed.

(** *** [rates] *)

Example rates_of_measured_rows :
  rates samples.events_rate samples.measured
  = {| active_rows := 2; mean := 3; stdev := 1 |}.
Proof. reflexivity. Qed.

(** C8.  [rates] summarizes exactly the rows that are not idle:
    [active_rows] is their number, at most the size of the table; the mean
    is the sum of their normal rates divided by [active_rows]; and with no
    active row the guarded division gives a mean and a standard deviation
    of zero. *)
Theorem rates_summarize_active_rows
    (normal : reservation.rate_sample → float) (st : state) :
  let active :=
    filter (λ row, reservation.idle (deref st row) = false) (table st) in
  let total :=
    foldl PrimFloat.add 0%float
      ((λ row, normal (reservation.rate (deref st row))) <$> active) in
  let summary := rates normal st in
  active_rows summary = N.of_nat (length active)
  ∧ (active_rows summary ≤ N.of_nat (length (table st)))%N
  ∧ mean summary = reservation.divide total (active_rows summary)
  ∧ (active_rows summary ≠ 0%N →
     mean summary
     = (total / of_uint63 (Uint63.of_Z (Z.of_N (active_rows summary))))%float)
  ∧ (active_rows summary = 0%N →
     mean summary = 0%float ∧ stdev summary = 0%float).
Proof.
  intros active total summary. subst summary. unfold rates.
  fold active. cbn [active_rows mean stdev].
  fold total.
  split_and!.
  - done.
  - pose proof (length_filter (λ row, reservation.idle (deref st row) = false)
                  (table st)) as Hle.
    fold active in Hle. lia.
  - done.
  - intros Hne. unfold reservation.divide.
    by destruct (N.eqb_spec (N.of_nat (length active)) 0).
  - intros Hzero.
    assert (active = []) as Hnil by (destruct active; [done|simpl in Hzero; lia]).
    subst total. rewrite Hnil. done.
Qed.

(** ** The inbound block protocol *)

Section protocol.
Import protocol_block_in collaborators.
Context {W : Type} (env : world W).

#[local] Arguments send_get_blocks : simpl never.

(** Takes the answer of the next call of the run, by cases when the
    handler branches on it. *)
Ltac answer :=
  match goal with
  | |- context [env ?X ?c ?w] =>
      let x := fresh "x" in
      let w' := fresh "w" in
      destruct (env X c w) as [x w'];
      try lazymatch type of x with
          | bool => destruct x
          | unit => destruct x
          | option _ => destruct x
          | code => destruct x
          | get_data => destruct x as [[|? ?]]
          end;
      cbn
  end.

(** Decides membership of an event in an explicit list of calls. *)
Ltac member :=
  repeat match goal with
         | H : _ ∈ [] |- _ => by apply elem_of_nil in H
         | H : _ ∈ _ :: _ |- _ =>
             apply elem_of_cons in H as [H|H]; [try discriminate|]
         | H : _ ∉ _ |- _ => exfalso; apply H; clear H
         | |- _ ∉ _ => intros ?
         | |- ?e ∈ ?e :: _ => apply list_elem_of_here
         | |- _ ∈ _ :: _ => apply list_elem_of_further
         end.

(** Takes the answer of the next call in the order of the run: the
    call whose state is already known. *)
Ltac ask :=
  match goal with
  | |- context [env ?X ?c ?w] =>
      is_var w;
      let x := fresh "x" in
      let w' := fresh "w" in
      destruct (env X c w) as [x w'];
      try lazymatch type of x with
          | bool => destruct x
          | unit => destruct x
          | option _ => destruct x
          | code => destruct x
          | get_data => destruct x as [[|? ?]]
          end;
      cbn
  end.

(** *** Runs *)

Lemma run_bind {A B : Type} (p : prog A) (f : A → prog B) (w : W) :
  run env (bind p f) w
  = (fst (fst (run env (f (fst (fst (run env p w)))) (snd (fst (run env p w))))),
     snd (fst (run env (f (fst (fst (run env p w)))) (snd (fst (run env p w))))),
     snd (run env p w)
       ++ snd (run env (f (fst (fst (run env p w)))) (snd (fst (run env p w))))).
Proof.
  revert w. induction p as [a|X c k IH]; intros w.
  - simpl. by destruct (run env (f a) w) as [[? ?] ?].
  - simpl.
    destruct (env X c w) as [x w1]. rewrite IH.
    destruct (run env (k x) w1) as [[a w2] t1]. simpl.
    by destruct (run env (f a) w2) as [[b w3] t2].
Qed.

Lemma run_then {A B : Type} (p : prog A) (f : A → prog B) (w : W) :
  run env (p ≫= f) w
  = (fst (fst (run env (f (fst (fst (run env p w)))) (snd (fst (run env p w))))),
     snd (fst (run env (f (fst (fst (run env p w)))) (snd (fst (run env p w))))),
     snd (run env p w)
       ++ snd (run env (f (fst (fst (run env p w)))) (snd (fst (run env p w))))).
Proof. apply run_bind. Qed.

(** *** [send_get_blocks] *)

(** The calls of [send_get_blocks], whatever the collaborators answer. *)
Lemma send_get_blocks_calls (self : t) (w : W) (e : event) :
  e ∈ trace env (send_get_blocks self) w →
  match e with
  | on_stopped None _ | on_is_candidates_stale _ | on_request _
  | on_log debug (sending_request _) | on_send _ => True
  | _ => False
  end.
Proof.
  unfold trace, send_get_blocks. cbn. repeat answer.
  all: intros He; repeat (apply elem_of_cons in He as [->|He]; [done|]).
  all: by apply elem_of_nil in He.
Qed.

(** C4.  A run of [send_get_blocks] sends no request when the protocol
    is stopped, when the candidate chain is stale, or when the request of
    the reservation has no inventory, these being what the collaborators
    answer.  A request is sent only when [stopped] and
    [is_candidates_stale] both answer false and the reservation gives a
    request with inventory, and then it is sent; what is sent is the
    request of the reservation, with its types converted to the witness
    types when [require_witness_] is set. *)
Theorem send_get_blocks_is_gated (self : t) (w : W) :
  let calls := trace env (send_get_blocks self) w in
  let is_stopped := answer_to env (stopped None) w in
  let w1 := state_after env (stopped None) w in
  let stale := answer_to env is_candidates_stale w1 in
  let w2 := state_after env is_candidates_stale w1 in
  let request := answer_to env reservation_request w2 in
  (is_stopped = true → ∀ m, on_send m ∉ calls)
  ∧ (stale = true → ∀ m, on_send m ∉ calls)
  ∧ (inventories request = [] → ∀ m, on_send m ∉ calls)
  ∧ (∀ m, on_send m ∈ calls →
       is_stopped = false ∧ stale = false ∧ inventories request ≠ []
       ∧ on_request request ∈ calls
       ∧ m = if require_witness_ self then to_witness request else request)
  ∧ (is_stopped = false → stale = false → inventories request ≠ [] →
     on_send (if require_witness_ self then to_witness request else request)
       ∈ calls).
Proof.
  intros calls is_stopped w1 stale w2 request.
  subst calls is_stopped w1 stale w2 request.
  unfold answer_to, state_after, trace, send_get_blocks. cbn.
  repeat ask.
  all: split_and!; intros; try done; member; try done.
  all: try match goal with H : on_send _ = on_send _ |- _ => injection H as -> end.
  all: try (split_and!; try done;
            apply list_elem_of_further, list_elem_of_further, list_elem_of_here).
  all: destruct (require_witness_ self); cbn;
    do 4 apply list_elem_of_further; apply list_elem_of_here.
Qed.

(** *** [handle_event] *)

(** C7.  On a timer event of a protocol that is not stopped ([stopped]
    answers false): an error other than [channel_timeout] is logged and
    stops the channel with that code; with no error or with
    [channel_timeout] the reservation is asked whether it expired, and the
    channel is stopped exactly when it did. *)
Theorem timer_event_stops_on_error_or_expiry (self : t) (ec : code) (w : W) :
  let calls := trace env (handle_event self ec) w in
  let w1 := state_after env (stopped (Some ec)) w in
  let is_expired := answer_to env reservation_expired w1 in
  answer_to env (stopped (Some ec)) w = false →
  (is_error ec = true → ec ≠ channel_timeout →
     calls = [on_stopped (Some ec) false; on_log error (timer_failure ec);
              on_stop ec])
  ∧ (is_error ec = false ∨ ec = channel_timeout →
     calls = on_stopped (Some ec) false :: on_expired is_expired
             :: (if is_expired : bool
                 then [on_log debug restarting_slow_slot; on_stop ec]
                 else [])
     ∧ existsb is_stop calls = is_expired).
Proof.
  intros calls w1 is_expired. subst calls w1 is_expired.
  unfold answer_to, state_after, trace, handle_event.
  destruct ec; cbn; repeat (case_bool_decide; try done); repeat ask;
    intros Hrunning; try done.
  all: split; [intros Herror Htimeout; try done|intros Hnone; try done].
  all: by destruct Hnone.
Qed.

(** *** [handle_receive_block] *)

(** Every run of [handle_receive_block] is one of the runs of
    [receive_run]. *)
Lemma handle_receive_block_run (self : t) (ec : code) (message : block) (w : W) :
  receive_run env self ec message
    (trace env (handle_receive_block self ec message) w)
    (result env (handle_receive_block self ec message) w).
Proof.
  unfold trace, result, handle_receive_block. cbn.
  answer; [constructor|].
  destruct (is_error ec) eqn:Hec; cbn.
  { repeat answer. by constructor. }
  destruct (require_witness_ self && negb (peer_witness_ self)) eqn:Hwitness; cbn.
  { repeat answer. by constructor. }
  answer.
  { repeat answer. by constructor. }
  answer; [|repeat answer; by constructor].
  answer; try (repeat answer; by constructor).
  answer. answer.
  - pose proof (receive_organized env self ec message n true) as Hrun.
    unfold trace in Hrun.
    destruct (n mod 100 =? 0)%N eqn:Hperiod; cbn; repeat answer;
      rewrite run_then; cbn; rewrite app_nil_r; by apply Hrun.
  - pose proof (receive_organized env self ec message n false) as Hrun.
    unfold trace in Hrun.
    destruct (n mod 1 =? 0)%N eqn:Hperiod; cbn; repeat answer;
      rewrite run_then; cbn; rewrite app_nil_r; by apply Hrun.
Qed.

(** Decides membership in the calls of a run of [handle_receive_block]. *)
Ltac received :=
  repeat match goal with
         | H : _ ∈ [] |- _ => by apply elem_of_nil in H
         | H : _ ∈ _ :: _ |- _ =>
             apply elem_of_cons in H as [H|H]; [try discriminate; simplify_eq|]
         | H : _ ∈ _ ++ _ |- _ => apply elem_of_app in H as [H|H]
         | H : _ ∈ (if ?c then _ else _) |- _ => destruct c eqn:?
         | H : _ ∈ trace _ (send_get_blocks _) _ |- _ =>
             by apply send_get_blocks_calls in H
         | H : is_error success = true |- _ => by cbn in H
         end.

(** C5 (amended).  On a block received without error by a protocol that
    is not stopped ([stopped] answers false), the channel is stopped with
    [channel_stopped], the handler returns [false] and [organize] is not
    called when the required witness is unavailable, when the reservation
    is stopped, or when [find_height_and_erase] misses.  The checks come
    in that order: the reservation is not consulted after a witness
    mismatch, and the hash is not looked up in a stopped reservation. *)
Theorem receive_block_rejections (self : t) (ec : code) (message : block) (w : W) :
  let calls := trace env (handle_receive_block self ec message) w in
  let accepted := result env (handle_receive_block self ec message) w in
  let w1 := state_after env (stopped (Some ec)) w in
  let partitioned := answer_to env reservation_stopped w1 in
  let w2 := state_after env reservation_stopped w1 in
  let found :=
    answer_to env (reservation_find_height_and_erase (hash message)) w2 in
  answer_to env (stopped (Some ec)) w = false →
  ec = success →
  (require_witness_ self && negb (peer_witness_ self) = true →
     calls = [on_stopped (Some ec) false; on_stop channel_stopped]
     ∧ existsb is_organize calls = false
     ∧ accepted = false)
  ∧ (require_witness_ self && negb (peer_witness_ self) = false →
     partitioned = true →
     calls = [on_stopped (Some ec) false; on_reservation_stopped true;
              on_log debug restarting_partitioned_slot;
              on_stop channel_stopped]
     ∧ existsb is_organize calls = false
     ∧ accepted = false)
  ∧ (require_witness_ self && negb (peer_witness_ self) = false →
     partitioned = false →
     found = None →
     calls = [on_stopped (Some ec) false; on_reservation_stopped false;
              on_find_height_and_erase (hash message) None;
              on_log debug unrequested_or_partitioned_block;
              on_stop channel_stopped]
     ∧ existsb is_organize calls = false
     ∧ accepted = false).
Proof.
  intros calls accepted w1 partitioned w2 found.
  subst calls accepted w1 partitioned w2 found.
  unfold answer_to, state_after, trace, result, handle_receive_block.
  intros Hrunning ->. revert Hrunning. cbn.
  destruct (require_witness_ self && negb (peer_witness_ self)); cbn.
  all: ask; intros Hrunning; try done.
  all: repeat ask.
  all: split_and!; intros; done.
Qed.

(** C6.  Once [find_height_and_erase] has found the block, [organize] is
    called at that height.  On an error code the channel is stopped with
    that code and neither [update_history] nor [send_get_blocks] is
    called; on success [update_history] is called and the run ends with a
    run of [send_get_blocks]. *)
Theorem organize_failure_stops_with_its_code
    (self : t) (ec : code) (message : block) (height : N) (w : W) :
  let calls := trace env (handle_receive_block self ec message) w in
  let accepted := result env (handle_receive_block self ec message) w in
  let reached :=
    [on_stopped (Some ec) false; on_reservation_stopped false;
     on_find_height_and_erase (hash message) (Some height)] in
  on_find_height_and_erase (hash message) (Some height) ∈ calls →
  ∃ error_code,
    on_organize message height error_code ∈ calls
    ∧ (is_error error_code = true →
       calls = reached ++ [on_organize message height error_code;
                           on_log fatal (organize_failure error_code);
                           on_stop error_code]
       ∧ accepted = false
       ∧ (on_update_history message ∉ calls)
       ∧ (∀ answer, on_stopped None answer ∉ calls)
       ∧ (∀ request, on_send request ∉ calls))
    ∧ (is_error error_code = false →
       ∃ before w',
         calls = before ++ trace env (send_get_blocks self) w'
         ∧ on_update_history message ∈ before
         ∧ existsb is_stop before = false
         ∧ accepted = true).
Proof.
  intros calls accepted reached. subst reached.
  pose proof (handle_receive_block_run self ec message w) as Hrun.
  fold calls accepted in Hrun. clearbody calls accepted.
  intros Hfound.
  destruct Hrun; try by received.
  - received. exists error_code. split_and!.
    + apply list_elem_of_further, list_elem_of_further, list_elem_of_further,
        list_elem_of_here.
    + intros _. split_and!; [done|done| | |]; intros; intros Hin; received.
    + congruence.
  - assert (height0 = height) as -> by (received; done). clear Hfound.
    exists success. split_and!.
    + apply list_elem_of_further, list_elem_of_further, list_elem_of_further,
        list_elem_of_here.
    + done.
    + intros _. eexists (_ :: _ :: _ :: _ :: _ :: _ :: _), _.
      split_and!; [reflexivity| |by destruct (_ =? _)%N|done].
      do 4 apply list_elem_of_further. apply list_elem_of_here.
Qed.

(** C9.  After [organize] succeeded at [height], the progress line of the
    block is logged exactly when [height] is a multiple of the period,
    100 when [is_blocks_stale] answers true and 1 otherwise; no other
    progress line is logged. *)
Theorem progress_is_logged_every_period
    (self : t) (ec : code) (message : block) (height : N) (w : W) :
  let calls := trace env (handle_receive_block self ec message) w in
  let line :=
    on_log info (progress height (hash message) (transactions message)
                   (N.max (total_inputs message) 1)) in
  on_organize message height success ∈ calls →
  ∃ stale,
    on_is_blocks_stale stale ∈ calls
    ∧ (line ∈ calls ↔ (height mod (if stale : bool then 100 else 1) = 0)%N)
    ∧ (∀ e, e ∈ calls → is_progress e = true → e = line).
Proof.
  intros calls line. subst line.
  pose proof (handle_receive_block_run self ec message w) as Hrun.
  fold calls in Hrun. clearbody calls.
  set (accepted := result env (handle_receive_block self ec message) w) in Hrun.
  clearbody accepted. intros Horganized.
  destruct Hrun; try by received.
  assert (height0 = height) as -> by (received; done). clear Horganized.
  exists stale. split_and!.
  - do 5 apply list_elem_of_further. apply list_elem_of_here.
  - destruct (height mod _ =? 0)%N eqn:Hperiod.
    + apply N.eqb_eq in Hperiod. split; [done|]. intros _.
      do 6 apply list_elem_of_further. apply list_elem_of_here.
    + apply N.eqb_neq in Hperiod. split; [|done].
      intros Hin. exfalso. received.
  - intros e He Hprogress.
    destruct (height mod _ =? 0)%N; received; try done.
    all: apply send_get_blocks_calls in He.
    all: destruct e as [| | | | | | | | | | | | |[] []]; done.
Qed.

End protocol.

(** *** Runs against scripted collaborators *)

Import protocol_block_in.

Example send_get_blocks_sends_witness_request :
  trace (samples.scripted samples.healthy)
    (send_get_blocks samples.witness_served) tt
  = [on_stopped None false; on_is_candidates_stale false;
     on_request samples.one_block; on_log debug (sending_request 1);
     on_send {| inventories :=
                  [ {| type := msg_witness_block; inventory_hash := 7%N |} ] |}].
Proof. reflexivity. Qed.

Example receive_block_on_healthy_channel :
  run (samples.scripted samples.healthy)
    (handle_receive_block samples.witness_served success samples.block_7) tt
  = (true, tt,
     [on_stopped (Some success) false; on_reservation_stopped false;
      on_find_height_and_erase 7%N (Some 200%N);
      on_organize samples.block_7 200 success;
      on_update_history samples.block_7; on_is_blocks_stale true;
      on_log info (progress 200 7%N 3 5);
      on_stopped None false; on_is_candidates_stale false;
      on_request samples.one_block; on_log debug (sending_request 1);
      on_send (to_witness samples.one_block)]).
Proof. reflexivity. Qed.

(** C5 (amended) on a running channel whose peer lacks the required
    witness. *)
Lemma receive_block_rejections_witness :
  let env := samples.scripted samples.healthy in
  let calls :=
    trace env
      (handle_receive_block samples.witness_missing success samples.block_7) tt in
  collaborators.answer_to env (stopped (Some success)) tt = false
  ∧ calls = [on_stopped (Some success) false; on_stop channel_stopped].
Proof.
  intros env calls.
  assert (collaborators.answer_to env (stopped (Some success)) tt = false)
    as Hrunning by reflexivity.
  split; [exact Hrunning|].
  destruct (receive_block_rejections env
              samples.witness_missing success samples.block_7 tt
              Hrunning eq_refl) as [Hwitness _].
  by destruct (Hwitness eq_refl).
Defined.

(** C5, as stated, fails on a stopped protocol: with the required witness
    unavailable the handler returns at once and never calls [stop]. *)
Lemma receive_block_when_stopped_counterexample :
  let calls :=
    trace (samples.scripted samples.halted)
      (handle_receive_block samples.witness_missing success samples.block_7) tt in
  require_witness_ samples.witness_missing
    && negb (peer_witness_ samples.witness_missing) = true
  ∧ calls = [on_stopped (Some success) true]
  ∧ existsb is_stop calls = false.
Proof. vm_compute. done. Qed.

(** C6 over a store that fails with code 42. *)
Lemma organize_failure_stops_with_its_code_witness :
  let calls :=
    trace (samples.scripted samples.corrupted)
      (handle_receive_block samples.witness_served success samples.block_7) tt in
  on_find_height_and_erase (hash samples.block_7) (Some 200%N) ∈ calls
  ∧ ∃ error_code,
      on_organize samples.block_7 200 error_code ∈ calls
      ∧ is_error error_code = true
      ∧ last calls = Some (on_stop error_code).
Proof.
  intros calls.
  assert (on_find_height_and_erase (hash samples.block_7) (Some 200%N) ∈ calls)
    as Hfound by (do 2 apply list_elem_of_further; apply list_elem_of_here).
  split; [exact Hfound|].
  destruct (organize_failure_stops_with_its_code
              (samples.scripted samples.corrupted) samples.witness_served
              success samples.block_7 200 tt Hfound)
    as (error_code & Horganize & Hfailure & _).
  exists error_code. split; [exact Horganize|].
  destruct (is_error error_code) eqn:Herror.
  - split; [done|]. destruct (Hfailure eq_refl) as (Hcalls & _).
    fold calls in Hcalls. rewrite Hcalls. reflexivity.
  - exfalso. subst calls.
    apply elem_of_cons in Horganize as [?|Horganize]; [discriminate|].
    apply elem_of_cons in Horganize as [?|Horganize]; [discriminate|].
    apply elem_of_cons in Horganize as [?|Horganize]; [discriminate|].
    apply elem_of_cons in Horganize as [Heq|Horganize].
    + injection Heq as ->. discriminate.
    + apply elem_of_cons in Horganize as [?|Horganize]; [discriminate|].
      apply elem_of_cons in Horganize as [?|Horganize]; [discriminate|].
      by apply elem_of_nil in Horganize.
Defined.

(** C7 on a channel timeout with a stalled slot. *)
Lemma timer_event_stops_on_error_or_expiry_witness :
  let env := samples.scripted samples.stalled in
  let calls := trace env (handle_event samples.witness_served channel_timeout) tt in
  collaborators.answer_to env (stopped (Some channel_timeout)) tt = false
  ∧ calls = [on_stopped (Some channel_timeout) false; on_expired true;
             on_log debug restarting_slow_slot; on_stop channel_timeout]
  ∧ existsb is_stop calls = true.
Proof.
  intros env calls.
  assert (collaborators.answer_to env (stopped (Some channel_timeout)) tt = false)
    as Hrunning by reflexivity.
  split; [exact Hrunning|].
  apply (timer_event_stops_on_error_or_expiry env
           samples.witness_served channel_timeout tt Hrunning).
  by right.
Defined.

(** C9 at height 200 on a stale chain. *)
Lemma progress_is_logged_every_period_witness :
  let calls :=
    trace (samples.scripted samples.healthy)
      (handle_receive_block samples.witness_served success samples.block_7) tt in
  on_organize samples.block_7 200 success ∈ calls
  ∧ ∃ stale,
      on_is_blocks_stale stale ∈ calls
      ∧ (on_log info (progress 200 7%N 3 5) ∈ calls
         ↔ (200 mod (if stale : bool then 100 else 1) = 0)%N).
Proof.
  intros calls.
  assert (on_organize samples.block_7 200 success ∈ calls) as Horganized
    by (do 3 apply list_elem_of_further; apply list_elem_of_here).
  split; [exact Horganized|].
  destruct (progress_is_logged_every_period (samples.scripted samples.healthy)
              samples.witness_served success samples.block_7 200 tt Horganized)
    as (stale & Hstale & Hline & _).
  exists stale. split; [exact Hstale|exact Hline].
Defined.

(** * Further properties *)

(** ** The handlers of the protocol *)

Section handlers.
Import protocol_block_in collaborators.
Context {W : Type} (env : world W).

#[local] Arguments send_get_blocks : simpl never.

Ltac reply :=
  match goal with
  | |- context [env ?X ?c ?w] =>
      let x := fresh "x" in
      let w' := fresh "w" in
      destruct (env X c w) as [x w'];
      try lazymatch type of x with
          | bool => destruct x
          | unit => destruct x
          | option _ => destruct x
          | code => destruct x
          | get_data => destruct x as [[|? ?]]
          end;
      cbn
  end.

Ltac among :=
  repeat match goal with
         | H : _ ∈ [] |- _ => by apply elem_of_nil in H
         | H : _ ∈ _ :: _ |- _ =>
             apply elem_of_cons in H as [H|H]; [try discriminate; simplify_eq|]
         | H : _ ∈ _ ++ _ |- _ => apply elem_of_app in H as [H|H]
         | H : _ ∈ (if ?c then _ else _) |- _ => destruct c eqn:?
         | H : _ ∈ trace _ (send_get_blocks _) _ |- _ =>
             by apply send_get_blocks_calls in H
         | H : is_error success = true |- _ => by cbn in H
         end.

Ltac ask_next :=
  match goal with
  | |- context [env ?X ?c ?w] =>
      is_var w;
      let x := fresh "x" in
      let w' := fresh "w" in
      destruct (env X c w) as [x w'];
      try lazymatch type of x with
          | bool => destruct x
          | unit => destruct x
          | option _ => destruct x
          | code => destruct x
          | get_data => destruct x as [[|? ?]]
          end;
      cbn
  end.

(** Every handler starts by asking whether the protocol is stopped: the
    first call of its run is [stopped(ec)], with the answer the
    collaborators give. *)
Lemma handle_receive_block_asks (self : t) (ec : code) (message : block) (w : W) :
  on_stopped (Some ec) (answer_to env (stopped (Some ec)) w)
  ∈ trace env (handle_receive_block self ec message) w.
Proof.
  unfold answer_to, trace, handle_receive_block. cbn.
  destruct (env bool (stopped (Some ec)) w) as [is_stopped w1].
  destruct (run env _ w1) as [[accepted w2] calls]. cbn.
  apply list_elem_of_here.
Qed.

(** X1.  When the protocol is stopped ([stopped(ec)] answers true),
    [handle_event] frees the reservation and then unsubscribes from the
    chain, whatever the code: the run is exactly [stopped],
    [reservation->stop], [unsubscribe]; nothing is logged and [stop] is
    not called. *)
Theorem stop_event_frees_the_reservation (self : t) (ec : code) (w : W) :
  let calls := trace env (handle_event self ec) w in
  answer_to env (stopped (Some ec)) w = true →
  calls = [on_stopped (Some ec) true; on_reservation_stop; on_unsubscribe].
Proof.
  intros calls. subst calls. unfold answer_to, trace, handle_event.
  destruct ec; cbn; repeat (case_bool_decide; try done); repeat ask_next;
    intros Hstopped; done.
Qed.

(** X2.  [handle_reindexed] keeps the subscription (returns [true])
    exactly when the protocol is not stopped and the code is no error.
    On a stopped protocol it makes no other call than [stopped]; on an
    error it logs the failure and stops the channel with that code;
    otherwise the rest of the run is the run of [send_get_blocks]. *)
Theorem reindexed_requests_blocks (self : t) (ec : code) (w : W) :
  let calls := trace env (handle_reindexed self ec) w in
  let subscribed := result env (handle_reindexed self ec) w in
  let is_stopped := answer_to env (stopped (Some ec)) w in
  let w1 := state_after env (stopped (Some ec)) w in
  (subscribed = true ↔ is_stopped = false ∧ is_error ec = false)
  ∧ (is_stopped = true → calls = [on_stopped (Some ec) true])
  ∧ (is_stopped = false → is_error ec = true →
     calls = [on_stopped (Some ec) false; on_log error (header_index_failure ec);
              on_stop ec])
  ∧ (is_stopped = false → is_error ec = false →
     calls = on_stopped (Some ec) false :: trace env (send_get_blocks self) w1).
Proof.
  intros calls subscribed is_stopped w1. subst calls subscribed is_stopped w1.
  unfold answer_to, state_after, trace, result, handle_reindexed. cbn.
  ask_next.
  - split; [|split; [|split]]; try done. split; [done|]. by intros [? _].
  - destruct (is_error ec) eqn:Hec; cbn.
    + repeat ask_next. split; [|split; [|split]]; try done.
      split; [done|]. by intros [_ ?].
    + rewrite run_then. cbn. rewrite app_nil_r.
      split; [|split; [|split]]; done.
Qed.

Lemma send_get_blocks_never_stops (self : t) (w : W) :
  existsb is_stop (trace env (send_get_blocks self) w) = false.
Proof.
  unfold trace, send_get_blocks. cbn. by repeat reply.
Qed.

(** X3.  [send_get_blocks] asks the reservation for a request only
    after [stopped] and [is_candidates_stale] both answered false, and a
    true answer of either ends the run.  Once the request [r] is made the
    run is fixed by it: nothing more for an empty request, and otherwise
    the debug line with the number of inventories followed by the send of
    [r], converted to witness types when the node requires witness.
    [send_get_blocks] never stops the channel. *)
Theorem send_get_blocks_asks_the_reservation_last (self : t) (w : W) :
  let calls := trace env (send_get_blocks self) w in
  (on_stopped None true ∈ calls → calls = [on_stopped None true])
  ∧ (on_is_candidates_stale true ∈ calls →
     calls = [on_stopped None false; on_is_candidates_stale true])
  ∧ (∀ r, on_request r ∈ calls →
     calls = [on_stopped None false; on_is_candidates_stale false; on_request r]
             ++ match inventories r with
                | [] => []
                | _ =>
                    [on_log debug
                       (sending_request (N.of_nat (length (inventories r))));
                     on_send (if require_witness_ self then to_witness r else r)]
                end)
  ∧ existsb is_stop calls = false.
Proof.
  intros calls. subst calls. split; [|split; [|split]];
    [| | |apply send_get_blocks_never_stops].
  all: unfold trace, send_get_blocks; cbn; repeat reply.
  all: try (intros Hin; try done; exfalso; by among).
  all: intros r Hin; among; try done.
  all: destruct (require_witness_ self); cbn; by rewrite ?length_fmap.
Qed.

(** X4.  The first two guards of [handle_receive_block]: on a stopped
    protocol the handler returns [false] after the [stopped] test alone;
    on a protocol that is not stopped an error code is logged and the
    channel is stopped with that very code, and the handler returns
    [false]. *)
Theorem receive_failure_stops_with_its_code
    (self : t) (ec : code) (message : block) (w : W) :
  let calls := trace env (handle_receive_block self ec message) w in
  let accepted := result env (handle_receive_block self ec message) w in
  let is_stopped := answer_to env (stopped (Some ec)) w in
  (is_stopped = true →
     calls = [on_stopped (Some ec) true] ∧ accepted = false)
  ∧ (is_stopped = false → is_error ec = true →
     calls = [on_stopped (Some ec) false; on_log error (receive_failure ec);
              on_stop ec]
     ∧ accepted = false).
Proof.
  intros calls accepted is_stopped.
  pose proof (handle_receive_block_asks self ec message w) as Hasks.
  pose proof (handle_receive_block_run env self ec message w) as Hrun.
  fold calls accepted is_stopped in Hrun, Hasks.
  clearbody calls accepted is_stopped.
  split; [intros ->|intros -> Hec].
  all: destruct Hrun; try congruence; try done; among.
Qed.

(** The run that accepts the block: the protocol is not stopped, the
    code is no error, the witness is available, the reservation is not
    stopped and holds the hash, and the chain organizes the block. *)
Lemma handle_receive_block_accepts
    (self : t) (ec : code) (message : block) (height : N) (w : W) :
  let w1 := state_after env (stopped (Some ec)) w in
  let w2 := state_after env reservation_stopped w1 in
  let w3 := state_after env (reservation_find_height_and_erase (hash message)) w2 in
  answer_to env (stopped (Some ec)) w = false →
  is_error ec = false →
  require_witness_ self && negb (peer_witness_ self) = false →
  answer_to env reservation_stopped w1 = false →
  answer_to env (reservation_find_height_and_erase (hash message)) w2
  = Some height →
  is_error (answer_to env (organize message height) w3) = false →
  result env (handle_receive_block self ec message) w = true.
Proof.
  intros w1 w2 w3. subst w1 w2 w3.
  unfold answer_to, state_after, result, handle_receive_block. cbn.
  ask_next; intros Hrunning; [done|]. intros -> ->. cbn.
  ask_next; intros Hpartitioned; [done|].
  ask_next; intros Hfound; [|done]. injection Hfound as ->.
  ask_next; intros Horganized; try done.
  ask_next. ask_next.
  all: destruct (_ =? _)%N; cbn; repeat ask_next; rewrite run_then; cbn.
  all: done.
Qed.

(** X5.  [handle_receive_block] returns [true] exactly when the chain
    organized the block with success, which it is asked to do when the
    protocol is not stopped, the code is no error, the witness is
    available and the reservation, not stopped, holds the hash.  An
    accepted run never stops the channel and records the block in the
    history of the reservation; a refused run of a protocol that is not
    stopped ends with its one and only [stop], and neither updates the
    history nor sends a request. *)
Theorem receive_block_accepts_what_it_organized
    (self : t) (ec : code) (message : block) (w : W) :
  let calls := trace env (handle_receive_block self ec message) w in
  let accepted := result env (handle_receive_block self ec message) w in
  let is_stopped := answer_to env (stopped (Some ec)) w in
  let w1 := state_after env (stopped (Some ec)) w in
  let partitioned := answer_to env reservation_stopped w1 in
  let w2 := state_after env reservation_stopped w1 in
  let found :=
    answer_to env (reservation_find_height_and_erase (hash message)) w2 in
  let w3 :=
    state_after env (reservation_find_height_and_erase (hash message)) w2 in
  (accepted = true ↔ ∃ height, on_organize message height success ∈ calls)
  ∧ (is_stopped = false → is_error ec = false →
     require_witness_ self && negb (peer_witness_ self) = false →
     partitioned = false →
     ∀ height, found = Some height →
       is_error (answer_to env (organize message height) w3) = false →
       accepted = true)
  ∧ (accepted = true →
     existsb is_stop calls = false ∧ on_update_history message ∈ calls)
  ∧ (is_stopped = false → accepted = false →
     ∃ front c,
       calls = front ++ [on_stop c]
       ∧ existsb is_stop front = false
       ∧ (on_update_history message ∉ calls)
       ∧ (∀ request, on_send request ∉ calls)).
Proof.
  intros calls accepted is_stopped w1 partitioned w2 found w3.
  split; [|split].
  2: { intros Hrunning Hec Hwitness Hpartitioned height Hfound Horganized.
       by apply (handle_receive_block_accepts self ec message height w). }
  all: pose proof (handle_receive_block_asks self ec message w) as Hasks.
  all: pose proof (handle_receive_block_run env self ec message w) as Hrun.
  all: fold calls accepted is_stopped in Hrun, Hasks.
  all: clearbody calls accepted is_stopped.
  all: clear w1 partitioned w2 found w3.
  - destruct Hrun.
    all: try (split; [done|]; intros [height0 Hin]; by among).
    split; [intros _|done]. exists height.
    do 3 apply list_elem_of_further. apply list_elem_of_here.
  - split.
    + intros Haccepted. destruct Hrun; try done. split.
      * cbn. rewrite existsb_app, send_get_blocks_never_stops.
        by destruct (_ =? _)%N.
      * do 4 apply list_elem_of_further. apply list_elem_of_here.
    + intros -> Hrefused. destruct Hrun; try done; try by among.
      all: first [ eexists [_], _; split; [reflexivity|]
                 | eexists [_; _], _; split; [reflexivity|]
                 | eexists [_; _; _], _; split; [reflexivity|]
                 | eexists [_; _; _; _], _; split; [reflexivity|]
                 | eexists [_; _; _; _; _], _; split; [reflexivity|] ].
      all: split; [done|].
      all: split; [intros Hin|intros request Hin]; by among.
Qed.

(** X6.  The constructor takes [require_witness_] from the services of
    the node and [peer_witness_] from those of the peer: a block received
    without error by a protocol that is not stopped is refused for missing
    witness (the run is [stopped], then [stop(channel_stopped)]) exactly
    when the [node_witness] flag is set in the services of the node and
    clear in those of the peer; no other bit of the services matters. *)
Theorem witness_mismatch_is_decided_by_the_services
    (node_services peer_services : N) (message : block) (w : W) :
  let self := create node_services peer_services in
  let calls := trace env (handle_receive_block self success message) w in
  answer_to env (stopped (Some success)) w = false →
  (calls = [on_stopped (Some success) false; on_stop channel_stopped]
   ↔ N.land node_services node_witness ≠ 0%N
     ∧ N.land peer_services node_witness = 0%N).
Proof.
  intros self calls Hrunning.
  pose proof (handle_receive_block_asks self success message w) as Hasks.
  pose proof (handle_receive_block_run env self success message w) as Hrun.
  fold calls in Hrun, Hasks. rewrite Hrunning in Hasks. clearbody calls.
  set (accepted := result env _ w) in Hrun. clearbody accepted.
  assert (require_witness_ self && negb (peer_witness_ self) = true
          ↔ N.land node_services node_witness ≠ 0%N
            ∧ N.land peer_services node_witness = 0%N)
    as Hflags.
  { subst self. unfold create, is_witness. cbn [require_witness_ peer_witness_].
    rewrite andb_true_iff, !negb_true_iff, negb_false_iff, N.eqb_neq, N.eqb_eq.
    done. }
  destruct Hrun; try (by among); try done.
  - split; [intros _; by apply Hflags|done].
  - split; [done|]. intros Hyes. apply Hflags in Hyes. congruence.
  - split; [done|]. intros Hyes. apply Hflags in Hyes. congruence.
  - split; [done|]. intros Hyes. apply Hflags in Hyes. congruence.
  - split; [intros Heq|intros Hyes; apply Hflags in Hyes; congruence].
    cbn in Heq. destruct (_ =? _)%N; discriminate.
Qed.

End handlers.

(** *** Runs against scripted collaborators *)

Example reindexed_on_healthy_channel :
  run (samples.scripted samples.healthy)
    (handle_reindexed samples.witness_served success) tt
  = (true, tt,
     [on_stopped (Some success) false;
      on_stopped None false; on_is_candidates_stale false;
      on_request samples.one_block; on_log debug (sending_request 1);
      on_send (to_witness samples.one_block)]).
Proof. reflexivity. Qed.

Example reindexed_on_halted_channel :
  run (samples.scripted samples.halted)
    (handle_reindexed samples.witness_served success) tt
  = (false, tt, [on_stopped (Some success) true]).
Proof. reflexivity. Qed.

Example receive_failure_on_healthy_channel :
  run (samples.scripted samples.healthy)
    (handle_receive_block samples.witness_served (failure 42) samples.block_7) tt
  = (false, tt,
     [on_stopped (Some (failure 42)) false;
      on_log error (receive_failure (failure 42)); on_stop (failure 42)]).
Proof. reflexivity. Qed.

(** X1 on a halted channel. *)
Lemma stop_event_frees_the_reservation_witness :
  let env := samples.scripted samples.halted in
  let calls := trace env (handle_event samples.witness_served channel_stopped) tt in
  collaborators.answer_to env (stopped (Some channel_stopped)) tt = true
  ∧ calls = [on_stopped (Some channel_stopped) true; on_reservation_stop;
             on_unsubscribe].
Proof.
  intros env calls.
  assert (collaborators.answer_to env (stopped (Some channel_stopped)) tt = true)
    as Hstopped by reflexivity.
  split; [exact Hstopped|].
  exact (stop_event_frees_the_reservation env
           samples.witness_served channel_stopped tt Hstopped).
Defined.

(** X6 for a witness node (services 9) on a peer serving the network only
    (services 1). *)
Lemma witness_mismatch_is_decided_by_the_services_witness :
  let env := samples.scripted samples.healthy in
  let calls :=
    trace env (handle_receive_block (create 9 1) success samples.block_7) tt in
  collaborators.answer_to env (stopped (Some success)) tt = false
  ∧ (calls = [on_stopped (Some success) false; on_stop channel_stopped]
     ↔ N.land 9 node_witness ≠ 0%N ∧ N.land 1 node_witness = 0%N).
Proof.
  intros env calls.
  assert (collaborators.answer_to env (stopped (Some success)) tt = false)
    as Hrunning by reflexivity.
  split; [exact Hrunning|].
  exact (witness_mismatch_is_decided_by_the_services env
           9 1 samples.block_7 tt Hrunning).
Defined.

(** ** Invariants of the reservation table *)

Import reservations spec invariants.

(** *** What [reserve] and [partition] change *)

Lemma reserve_moves_a_prefix (minimal : ptr) (r : reservation.t) (st : state) :
  heap st !! minimal = Some r →
  ∃ j, j ≤ length (hashes_ st)
       ∧ (N.of_nat j ≤ size_sub max_request_ (reservation.size r))%N
       ∧ fst (reserve minimal st)
         = {| heap := <[minimal := pending_appended r (take j (hashes_ st))]>
                        (heap st);
              table_ := table_ st;
              hashes_ := drop j (hashes_ st);
              timeout_ := timeout_ st |}.
Proof.
  intros Hp. unfold reserve. cbn [fst].
  rewrite (deref_lookup _ _ _ Hp), for_loop_const.
  set (allocation := N.min _ _).
  exists (N.to_nat allocation).
  assert (N.to_nat allocation ≤ length (hashes_ st)) as Hle
    by (subst allocation; unfold hash_queue.size; lia).
  split; [done|]. split; [subst allocation; lia|].
  by apply reserve_prefix.
Qed.

Lemma pending_hashes_insert (l : list reservation.t) (p : nat) (r r' : reservation.t) :
  l !! p = Some r →
  concat (reservation.heights_ <$> <[p := r']> l) ++ reservation.heights_ r
  ≡ₚ concat (reservation.heights_ <$> l) ++ reservation.heights_ r'.
Proof.
  intros Hp. rewrite insert_take_drop by (by eapply lookup_lt_Some).
  rewrite <- (take_drop_middle l p r Hp) at 3.
  rewrite !fmap_app, !fmap_cons, !concat_app, !concat_cons.
  rewrite <- !app_assoc.
  apply Permutation_app_head.
  etransitivity; [apply Permutation_app_comm|].
  rewrite (app_assoc (reservation.heights_ r)).
  apply Permutation_app_tail, Permutation_app_comm.
Qed.

Lemma reserve_conserves_hashes (minimal : ptr) (st : state) :
  is_Some (heap st !! minimal) →
  pending_hashes (fst (reserve minimal st)) ++ hashes_ (fst (reserve minimal st))
  ≡ₚ pending_hashes st ++ hashes_ st.
Proof.
  intros [r Hp].
  destruct (reserve_moves_a_prefix minimal r st Hp) as (j & _ & _ & ->).
  unfold pending_hashes. cbn [heap hashes_].
  pose proof (pending_hashes_insert (heap st) minimal r
                (pending_appended r (take j (hashes_ st))) Hp) as Hperm.
  cbn [pending_appended reservation.heights_] in Hperm.
  rewrite <- (take_drop j (hashes_ st)) at 3.
  rewrite (app_assoc _ (take j _)). apply Permutation_app_tail.
  apply (Permutation_app_inv_r (reservation.heights_ r)).
  rewrite Hperm, <- !app_assoc.
  apply Permutation_app_head, Permutation_app_comm.
Qed.

Lemma partition_rows_conserves_hashes (maximal minimal : ptr) (st : state) :
  maximal ≠ minimal →
  is_Some (heap st !! minimal) →
  pending_hashes (fst (partition_rows maximal minimal st)) ≡ₚ pending_hashes st.
Proof.
  intros Hne [m Hm]. unfold partition_rows, reservation.partition, pending_hashes.
  cbn [fst heap set_heap]. rewrite insert_all, (deref_lookup _ _ _ Hm).
  destruct (heap st !! maximal) as [d|] eqn:Hd.
  - rewrite (deref_lookup _ _ _ Hd).
    set (n := (length (reservation.heights_ d) + 1) / 2).
    set (self := {| reservation.slot_ := _ |}).
    assert (<[maximal := self]> (heap st) !! minimal = Some m) as Hm'
      by (by rewrite list_lookup_insert_ne).
    pose proof (pending_hashes_insert _ minimal m
                  (pending_appended m (take n (reservation.heights_ d))) Hm')
      as Hother.
    pose proof (pending_hashes_insert _ maximal d self Hd) as Hself.
    cbn [pending_appended reservation.heights_] in Hother.
    cbn [reservation.heights_] in Hself.
    trans (concat (reservation.heights_ <$> <[maximal := self]> (heap st))
             ++ take n (reservation.heights_ d)).
    { apply (Permutation_app_inv_r (reservation.heights_ m)).
      rewrite Hother, <- !app_assoc.
      apply Permutation_app_head, Permutation_app_comm. }
    apply (Permutation_app_inv_r (drop n (reservation.heights_ d))).
    by rewrite <- app_assoc, take_drop.
  - unfold deref. rewrite Hd. cbn.
    rewrite (list_insert_ge _ maximal) by (by apply lookup_ge_None).
    rewrite list_insert_id; [done|].
    rewrite Hm. f_equal. destruct m. unfold pending_appended. cbn.
    by rewrite app_nil_r.
Qed.

Lemma partition_conserves_hashes (minimal : ptr) (st : state) :
  is_Some (heap st !! minimal) →
  pending_hashes (fst (partition minimal st)) ≡ₚ pending_hashes st
  ∧ hashes_ (fst (partition minimal st)) = hashes_ st.
Proof.
  intros Hm. unfold partition.
  destruct (find_maximal st) as [maximal|]; [|done].
  destruct (decide (maximal ≠ minimal)) as [Hne|]; [|done].
  split; [by apply partition_rows_conserves_hashes|].
  unfold partition_rows. by destruct (reservation.partition _ _) as [[? ?] ?].
Qed.

Lemma reserve_keeps_alive (minimal p : ptr) (st : state) :
  is_Some (heap st !! p) → is_Some (heap (fst (reserve minimal st)) !! p).
Proof.
  intros Hp. unfold reserve. cbn [fst]. rewrite for_loop_const.
  induction (N.to_nat _) as [|n IH]; [done|].
  simpl Nat.iter. unfold take_one at 1, insert_at. cbn [snd heap set_heap].
  apply lookup_lt_is_Some. rewrite length_alter.
  unfold dequeue_into.
  destruct (hash_queue.dequeue _) as [[e rest]|]; cbn [snd heap set_hashes];
    by apply lookup_lt_is_Some.
Qed.

Lemma populate_conserves (st : state) (minimal : ptr) :
  is_Some (heap st !! minimal) →
  let after := fst (populate minimal st) in
  pending_hashes after ++ hashes_ after ≡ₚ pending_hashes st ++ hashes_ st.
Proof.
  intros Hm after. subst after. unfold populate.
  pose proof (reserve_conserves_hashes minimal st Hm) as Hreserve.
  pose proof (reserve_keeps_alive minimal minimal st Hm) as Halive.
  destruct (reserve minimal st) as [st1 reserved]. cbn [fst] in *.
  destruct reserved; [done|].
  destruct (partition_conserves_hashes minimal st1 Halive) as [Hperm ->].
  by rewrite Hperm.
Qed.

(** *** What [populate] leaves as it is *)

Lemma take_one_frame (minimal : ptr) (c : hash_queue.entry * state) :
  timeout_ (snd (take_one minimal c)) = timeout_ (snd c)
  ∧ length (heap (snd (take_one minimal c))) = length (heap (snd c))
  ∧ hashes_ (snd (take_one minimal c)) = drop 1 (hashes_ (snd c))
  ∧ ∀ p, p ≠ minimal → heap (snd (take_one minimal c)) !! p = heap (snd c) !! p.
Proof.
  unfold take_one, dequeue_into, insert_at, hash_queue.dequeue.
  destruct (hashes_ (snd c)) as [|e rest] eqn:Hq;
    cbn [fst snd heap timeout_ hashes_ set_heap set_hashes];
    rewrite length_alter; split_and!; try done;
    intros p Hp; by rewrite list_lookup_alter_ne.
Qed.

Lemma reserve_frame (minimal : ptr) (st : state) :
  timeout_ (fst (reserve minimal st)) = timeout_ st
  ∧ length (heap (fst (reserve minimal st))) = length (heap st)
  ∧ (∃ j, hashes_ (fst (reserve minimal st)) = drop j (hashes_ st))
  ∧ ∀ p, p ≠ minimal → heap (fst (reserve minimal st)) !! p = heap st !! p.
Proof.
  unfold reserve. cbn [fst]. rewrite for_loop_const.
  induction (N.to_nat _) as [|n (IHt & IHl & [j IHq] & IHp)].
  - split_and!; try done. by exists 0.
  - simpl Nat.iter.
    destruct (take_one_frame minimal
                (Nat.iter n (take_one minimal) (indeterminate, st)))
      as (Ht & Hl & Hq & Hp).
    split_and!.
    + by rewrite Ht.
    + by rewrite Hl.
    + exists (j + 1). by rewrite Hq, IHq, drop_drop.
    + intros p Hne. by rewrite Hp, IHp.
Qed.

Lemma partition_frame (minimal : ptr) (st : state) :
  timeout_ (fst (partition minimal st)) = timeout_ st
  ∧ length (heap (fst (partition minimal st))) = length (heap st)
  ∧ hashes_ (fst (partition minimal st)) = hashes_ st
  ∧ ∀ p, p ≠ minimal → p ∉ table_ st →
         heap (fst (partition minimal st)) !! p = heap st !! p.
Proof.
  unfold partition.
  destruct (find_maximal st) as [maximal|] eqn:Hmax; [|done].
  destruct (decide (maximal ≠ minimal)) as [Hne|]; [|done].
  unfold partition_rows.
  destruct (reservation.partition _ _) as [[self other] moved].
  cbn [fst heap timeout_ hashes_ set_heap].
  rewrite !length_insert. split_and!; try done.
  intros p Hp Hrow.
  apply find_maximal_Some in Hmax as (i & Hi & _).
  rewrite !list_lookup_insert_ne; [done| |done].
  intros <-. apply Hrow. by eapply list_elem_of_lookup_2.
Qed.

Lemma populate_frame (minimal : ptr) (st : state) :
  table_ (fst (populate minimal st)) = table_ st
  ∧ timeout_ (fst (populate minimal st)) = timeout_ st
  ∧ length (heap (fst (populate minimal st))) = length (heap st)
  ∧ (∃ j, hashes_ (fst (populate minimal st)) = drop j (hashes_ st))
  ∧ (∀ p, reservation.slot (deref (fst (populate minimal st)) p)
          = reservation.slot (deref st p))
  ∧ ∀ p, p ≠ minimal → p ∉ table_ st →
         heap (fst (populate minimal st)) !! p = heap st !! p.
Proof.
  unfold populate.
  destruct (reserve_slots minimal st) as [Htable Hslot].
  destruct (reserve_frame minimal st) as (Ht & Hl & Hq & Hp).
  destruct (reserve minimal st) as [st1 reserved]. cbn [fst] in *.
  destruct reserved; cbn [fst].
  - split_and!; try done. intros p Hne _. by apply Hp.
  - destruct (partition_slots minimal st1) as [Htable' Hslot'].
    destruct (partition_frame minimal st1) as (Ht' & Hl' & Hq' & Hp').
    split_and!.
    + by rewrite Htable'.
    + by rewrite Ht'.
    + by rewrite Hl'.
    + by rewrite Hq'.
    + intros p. by rewrite Hslot'.
    + intros p Hne Hrow. rewrite Hp' by (by rewrite ?Htable). by apply Hp.
Qed.

(** *** The request limit *)

Lemma bounded_deref (st : state) (p : ptr) :
  bounded st → (reservation.size (deref st p) ≤ max_request_)%N.
Proof.
  intros Hb. unfold deref. destruct (heap st !! p) as [r|] eqn:Hp; simpl.
  - by apply (Forall_lookup_1 _ _ _ _ Hb Hp).
  - done.
Qed.

Lemma initialize_bounded (q : hash_queue.t) (timeout K : N) :
  bounded (initialize K {| heap := []; table_ := []; hashes_ := q;
                           timeout_ := timeout |}).
Proof.
  rewrite initialize_eq by done. cbn [heap table_ hashes_ timeout_].
  set (blocks := hash_queue.size q).
  set (rows := N.min _ blocks).
  set (allocation := N.min blocks _).
  unfold bounded. cbn [heap app].
  apply Forall_lookup_2. intros row r Hr.
  pose proof (lookup_lt_Some _ _ _ Hr) as Hrow.
  rewrite length_dealt_rows in Hrow.
  rewrite lookup_dealt_rows in Hr by done. injection Hr as <-.
  unfold reservation.size, slot_holding. cbn [reservation.heights_].
  assert (allocation / rows * rows ≤ blocks)%N as Hle.
  { transitivity allocation; [|subst allocation; lia].
    rewrite N.mul_comm. apply N.Div0.mul_div_le. }
  rewrite length_dealt by (done || (subst blocks; unfold hash_queue.size in Hle; lia)).
  rewrite N2Nat.id.
  transitivity (rows * max_request_ / rows)%N.
  - apply N.Div0.div_le_mono. subst allocation. lia.
  - rewrite (N.mul_comm rows), N.div_mul by lia. done.
Qed.

Lemma populate_bounded (minimal : ptr) (st : state) :
  is_Some (heap st !! minimal) →
  bounded st → bounded (fst (populate minimal st)).
Proof.
  intros [r Hp] Hb. unfold populate.
  pose proof (Forall_lookup_1 _ _ _ _ Hb Hp) as Hr. cbn beta in Hr.
  rewrite (reserve_eq minimal r st Hp Hr).
  set (allocation := N.to_nat _).
  set (after := {| heap := _ |}).
  assert (bounded after) as Hafter.
  { apply Forall_insert; [done|].
    unfold reservation.size, pending_appended in *. cbn [reservation.heights_].
    rewrite length_app, length_take. subst allocation. lia. }
  destruct (negb (reservation.empty (deref after minimal))) eqn:Hempty;
    cbn [fst]; [done|].
  apply negb_false_iff in Hempty.
  unfold partition.
  destruct (find_maximal after) as [maximal|]; [|done].
  destruct (decide (maximal ≠ minimal)) as [Hne|]; [|done].
  unfold partition_rows, reservation.partition. cbn [fst].
  pose proof (bounded_deref after maximal Hafter) as Hmax.
  unfold reservation.size in Hmax.
  apply Forall_insert; [apply Forall_insert; [done|]|].
  - unfold reservation.size. cbn [reservation.heights_].
    rewrite length_drop. lia.
  - rewrite insert_all. unfold reservation.size, pending_appended.
    cbn [reservation.heights_].
    rewrite empty_heights in Hempty. apply bool_decide_eq_true in Hempty.
    rewrite Hempty. cbn [app]. rewrite length_take. lia.
Qed.

(** *** The rows of the table *)

Lemma initialize_well_formed (q : hash_queue.t) (timeout K : N) :
  well_formed (initialize K {| heap := []; table_ := []; hashes_ := q;
                               timeout_ := timeout |}).
Proof.
  rewrite initialize_eq by done. cbn [heap table_ hashes_ timeout_].
  split; cbn [table_ heap app length].
  - apply NoDup_seq.
  - apply Forall_forall. intros p Hp. apply elem_of_seq in Hp.
    rewrite length_dealt_rows. lia.
Qed.

Lemma remove_well_formed (row : ptr) (st : state) :
  well_formed st → well_formed (remove row st).
Proof.
  intros [Hnd Hlive]. unfold remove.
  destruct (find row (table_ st)) as [it|]; [|done].
  split; cbn [table_ heap set_table].
  - eapply sublist_NoDup; [exact Hnd|apply sublist_delete].
  - apply Forall_forall. intros p Hp.
    apply list_elem_of_delete_inv in Hp.
    by apply (proj1 (Forall_forall _ _) Hlive).
Qed.

Lemma populate_well_formed (minimal : ptr) (st : state) :
  well_formed st → well_formed (fst (populate minimal st)).
Proof.
  intros [Hnd Hlive].
  destruct (populate_frame minimal st) as (Htable & _ & Hlen & _).
  split; rewrite Htable; [done|]. by rewrite Hlen.
Qed.

Lemma remove_bounded (row : ptr) (st : state) :
  bounded st → bounded (remove row st).
Proof.
  unfold remove. by destruct (find row (table_ st)).
Qed.

Lemma remove_heap (row : ptr) (st : state) :
  heap (remove row st) = heap st ∧ hashes_ (remove row st) = hashes_ st.
Proof.
  unfold remove. by destruct (find row (table_ st)).
Qed.

(** *** The hashes dealt by [initialize] *)

Lemma pending_hashes_dealt_round (es : list hash_queue.entry)
    (rows : list reservation.t) :
  length es = length rows →
  concat (reservation.heights_ <$> zip_with reservation.insert es rows)
  ≡ₚ concat (reservation.heights_ <$> rows) ++ es.
Proof.
  revert rows. induction es as [|e es IH]; intros [|r rows] Hlen;
    try done; simpl in *.
  rewrite IH by lia. rewrite <- !app_assoc. apply Permutation_app_head.
  change (e :: es) with ([e] ++ es).
  rewrite !app_assoc. apply Permutation_app_tail, Permutation_app_comm.
Qed.

Lemma pending_hashes_dealt_rows (q : hash_queue.t) (timeout : N)
    (rows rounds : nat) :
  rounds * rows ≤ length q →
  concat (reservation.heights_ <$> dealt_rows q timeout rows rounds)
  ≡ₚ take (rounds * rows) q.
Proof.
  induction rounds as [|rounds IH]; intros Hq.
  - simpl. unfold dealt_rows, dealt. simpl.
    induction (seq 0 rows) as [|row l IHl]; [done|]. by simpl.
  - rewrite <- dealt_rows_S by done.
    rewrite pending_hashes_dealt_round.
    + rewrite IH by lia. rewrite take_take_drop.
      by replace (rounds * rows + rows) with (S rounds * rows) by lia.
    + rewrite length_take, length_drop, length_dealt_rows. simpl in Hq. lia.
Qed.

Lemma initialize_conserves_hashes (q : hash_queue.t) (timeout K : N) :
  let st := initialize K {| heap := []; table_ := []; hashes_ := q;
                            timeout_ := timeout |} in
  pending_hashes st ++ hashes_ st ≡ₚ q.
Proof.
  intros st. subst st. rewrite initialize_eq by done.
  unfold pending_hashes. cbn [heap table_ hashes_ timeout_ app].
  set (blocks := hash_queue.size q).
  set (rows := N.min _ blocks).
  set (allocation := N.min blocks _).
  assert (N.to_nat (allocation / rows) * N.to_nat rows ≤ length q) as Hle.
  { assert (allocation / rows * rows ≤ blocks)%N as Hle.
    { transitivity allocation; [|subst allocation; lia].
      rewrite N.mul_comm. apply N.Div0.mul_div_le. }
    subst blocks. unfold hash_queue.size in Hle. lia. }
  rewrite pending_hashes_dealt_rows by done.
  by rewrite take_drop.
Qed.

(** *** The table through [populate] and [remove] *)

(** X7.  [populate] on a live slot only moves hashes: the table, the
    timeout, the number of slot objects and the identifier of every slot
    are as before; the queue is what was left of it after some entries
    were taken from its front; and the hashes held by the slots together
    with those in the queue are the same as before, none lost and none
    duplicated. *)
Theorem populate_only_moves_hashes (st : state) (minimal : ptr) :
  is_Some (heap st !! minimal) →
  let after := fst (populate minimal st) in
  table_ after = table_ st
  ∧ timeout_ after = timeout_ st
  ∧ length (heap after) = length (heap st)
  ∧ (∀ p, reservation.slot (deref after p) = reservation.slot (deref st p))
  ∧ (∃ j, hashes_ after = drop j (hashes_ st))
  ∧ pending_hashes after ++ hashes_ after ≡ₚ pending_hashes st ++ hashes_ st.
Proof.
  intros Hm after. subst after.
  destruct (populate_frame minimal st) as (Htable & Ht & Hlen & Hq & Hslot & _).
  split_and!; try done. by apply populate_conserves.
Qed.

(** X7 on the middle row of three rows with one header left in the
    queue. *)
Lemma populate_only_moves_hashes_witness :
  let st := samples.three_rows in
  let after := fst (populate 1 st) in
  is_Some (heap st !! 1)
  ∧ table_ after = table_ st
  ∧ timeout_ after = timeout_ st
  ∧ length (heap after) = length (heap st)
  ∧ (∀ p, reservation.slot (deref after p) = reservation.slot (deref st p))
  ∧ (∃ j, hashes_ after = drop j (hashes_ st))
  ∧ pending_hashes after ++ hashes_ after ≡ₚ pending_hashes st ++ hashes_ st.
Proof.
  assert (is_Some (heap samples.three_rows !! 1)) as Hm by (eexists; reflexivity).
  split; [exact Hm|].
  exact (populate_only_moves_hashes samples.three_rows 1 Hm).
Defined.

(** X8.  [populate] takes hashes from the queue and from the rows of the
    table only: a slot object that is not in the table (one removed
    before) and is not the slot being filled is left exactly as it is,
    also when it holds hashes and the slot being filled ends empty. *)
Theorem populate_spares_the_removed_rows (st : state) (minimal p : ptr) :
  p ≠ minimal → p ∉ table_ st →
  heap (fst (populate minimal st)) !! p = heap st !! p.
Proof.
  intros Hne Hrow.
  destruct (populate_frame minimal st) as (_ & _ & _ & _ & _ & Hp).
  by apply Hp.
Qed.

(** X8: slot 0 holds the only hash and was removed; filling the empty
    slot 1 leaves it alone. *)
Lemma populate_spares_the_removed_rows_witness :
  let st := remove 0 samples.singleton_maximal in
  0 ≠ 1 ∧ (0 ∉ table_ st)
  ∧ heap (fst (populate 1 st)) !! 0 = heap st !! 0.
Proof.
  assert (0 ≠ 1) as Hne by lia.
  assert (0 ∉ table_ (remove 0 samples.singleton_maximal)) as Hrow.
  { vm_compute. intros Hin. apply elem_of_cons in Hin as [Hin|Hin]; [lia|].
    by apply elem_of_nil in Hin. }
  split; [exact Hne|]. split; [exact Hrow|].
  exact (populate_spares_the_removed_rows _ 1 0 Hne Hrow).
Defined.

(** X9.  Every table the class can reach (the constructor, then any
    sequence of [remove] and of [populate] on a live slot) has distinct
    rows that point to live slot objects, holds at most [max_request]
    hashes in each slot, and lists its rows by ascending slot
    identifier. *)
Theorem reachable_tables_are_sound (hashes : hash_queue.t) (st : state) :
  reachable hashes st → well_formed st ∧ bounded st ∧ ascending st.
Proof.
  induction 1 as [timeout K|row st _ (Hwf & Hb & Hasc)
                 |minimal st _ (Hwf & Hb & Hasc) Hlive].
  - split_and!.
    + apply initialize_well_formed.
    + apply initialize_bounded.
    + apply initialize_ascending.
  - split_and!.
    + by apply remove_well_formed.
    + by apply remove_bounded.
    + by apply remove_ascending.
  - split_and!.
    + by apply populate_well_formed.
    + apply populate_bounded; [by apply lookup_lt_is_Some|done].
    + by apply populate_ascending.
Qed.

(** X9 after the removal of row 0 and a [populate] of slot 1. *)
Lemma reachable_tables_are_sound_witness :
  let st := fst (populate 1 (remove 0 samples.three_rows)) in
  reachable (samples.headers 7) st
  ∧ well_formed st ∧ bounded st ∧ ascending st.
Proof.
  assert (reachable (samples.headers 7)
            (fst (populate 1 (remove 0 samples.three_rows)))) as Hreach.
  { apply reachable_populate; [|vm_compute; lia].
    apply reachable_remove, reachable_create. }
  split; [exact Hreach|].
  exact (reachable_tables_are_sound _ _ Hreach).
Defined.

(** X10.  No hash is lost or duplicated: in every reachable state the
    hashes held by the slot objects (removed rows included) together with
    those left in the queue are a permutation of the queue the table was
    constructed over. *)
Theorem reachable_tables_keep_every_hash (hashes : hash_queue.t) (st : state) :
  reachable hashes st → pending_hashes st ++ hashes_ st ≡ₚ hashes.
Proof.
  induction 1 as [timeout K|row st _ IH|minimal st _ IH Hlive].
  - apply initialize_conserves_hashes.
  - destruct (remove_heap row st) as [Hheap Hq].
    unfold pending_hashes. by rewrite Hheap, Hq.
  - etransitivity; [|exact IH].
    apply populate_conserves. by apply lookup_lt_is_Some.
Qed.

(** X10 after the removal of row 2 and a [populate] of its slot. *)
Lemma reachable_tables_keep_every_hash_witness :
  let st := fst (populate 2 (remove 2 samples.three_rows)) in
  reachable (samples.headers 7) st
  ∧ pending_hashes st ++ hashes_ st ≡ₚ samples.headers 7.
Proof.
  assert (reachable (samples.headers 7)
            (fst (populate 2 (remove 2 samples.three_rows)))) as Hreach.
  { apply reachable_populate; [|vm_compute; lia].
    apply reachable_remove, reachable_create. }
  split; [exact Hreach|].
  exact (reachable_tables_keep_every_hash _ _ Hreach).
Defined.

(** X11.  On a table of distinct rows, [remove row] leaves exactly the
    other rows: [row] is no longer in the table and every other row still
    is. *)
Theorem remove_forgets_the_row (st : state) (row : ptr) :
  NoDup (table_ st) →
  ∀ p, p ∈ table_ (remove row st) ↔ p ∈ table_ st ∧ p ≠ row.
Proof.
  intros Hnd p. unfold remove.
  destruct (find row (table_ st)) as [it|] eqn:Hfind.
  - apply find_Some in Hfind as [Hit _]. cbn [table_ set_table].
    rewrite delete_take_drop.
    rewrite <- (take_drop_middle _ _ _ Hit) in Hnd at 1.
    apply NoDup_app in Hnd as (_ & Hfront & Hback).
    apply NoDup_cons in Hback as [Hback _].
    rewrite <- (take_drop_middle _ _ _ Hit) at 3.
    rewrite !elem_of_app, elem_of_cons. split.
    + intros [Hp|Hp]; (split; [tauto|]); intros ->.
      * apply (Hfront row Hp), list_elem_of_here.
      * by apply Hback.
    + intros [[Hp|[->|Hp]] Hne]; tauto.
  - apply find_None in Hfind. split; [|tauto].
    intros Hp. split; [done|]. by intros ->.
Qed.

(** X11 on the middle row of three. *)
Lemma remove_forgets_the_row_witness :
  NoDup (table_ samples.three_rows)
  ∧ ∀ p, p ∈ table_ (remove 1 samples.three_rows)
         ↔ p ∈ table_ samples.three_rows ∧ p ≠ 1.
Proof.
  assert (NoDup (table_ samples.three_rows)) as Hnd
    by (vm_compute; apply (NoDup_seq 0 3)).
  split; [exact Hnd|].
  exact (remove_forgets_the_row samples.three_rows 1 Hnd).
Defined.

(** *** [populate] with nothing to reserve *)

(** X12.  When [reserve] has nothing to take (the queue is empty, or the
    slot holds exactly [max_request] hashes), [populate] changes nothing
    and answers for the slot as it stands: [true] for a slot that holds
    hashes; and [false] for an empty slot when the table is empty or its
    maximal row is the slot itself. *)
Theorem populate_with_nothing_to_reserve (st : state) (minimal : ptr)
    (r : reservation.t) :
  heap st !! minimal = Some r →
  (hashes_ st = [] ∨ reservation.size r = max_request_) →
  (reservation.empty r = false → populate minimal st = (st, true))
  ∧ (reservation.empty r = true →
     find_maximal st = None ∨ find_maximal st = Some minimal →
     populate minimal st = (st, false)).
Proof.
  intros Hp Hnothing.
  assert (reserve minimal st = (st, negb (reservation.empty r))) as Hreserve.
  { unfold reserve. rewrite (deref_lookup _ _ _ Hp).
    assert (N.min (hash_queue.size (hashes_ st))
              (size_sub max_request_ (reservation.size r)) = 0%N) as ->.
    { destruct Hnothing as [->| ->].
      - unfold hash_queue.size. simpl length. lia.
      - unfold size_sub. rewrite Z.sub_diag.
        change (Z.to_N (0 mod 2 ^ 64)) with 0%N. lia. }
    rewrite for_loop_0. cbn [snd]. by rewrite (deref_lookup _ _ _ Hp). }
  unfold populate. rewrite Hreserve. split.
  - by intros ->.
  - intros -> Hmax. cbn [negb]. unfold partition.
    destruct Hmax as [-> | ->]; [done|].
    by destruct (decide (minimal ≠ minimal)).
Qed.

(** X12 on the empty slot 1, the only row left over an empty queue. *)
Lemma populate_with_nothing_to_reserve_witness :
  let st := remove 0 samples.singleton_maximal in
  let r := slot_holding 1 5 [] in
  heap st !! 1 = Some r
  ∧ (hashes_ st = [] ∨ reservation.size r = max_request_)
  ∧ (reservation.empty r = false → populate 1 st = (st, true))
  ∧ (reservation.empty r = true →
     find_maximal st = None ∨ find_maximal st = Some 1 →
     populate 1 st = (st, false)).
Proof.
  assert (heap (remove 0 samples.singleton_maximal) !! 1
          = Some (slot_holding 1 5 [])) as Hp by reflexivity.
  assert (hashes_ (remove 0 samples.singleton_maximal) = []
          ∨ reservation.size (slot_holding 1 5 []) = max_request_) as Hnothing
    by (left; reflexivity).
  split; [exact Hp|]. split; [exact Hnothing|].
  exact (populate_with_nothing_to_reserve _ 1 _ Hp Hnothing).
Defined.

(** *** [reserve] past the request limit *)

Lemma size_sub_wraps (a b : N) :
  (a < b)%N → (b < 2 ^ 64)%N → size_sub a b = (2 ^ 64 + a - b)%N.
Proof.
  intros Hlt Hb. unfold size_sub.
  rewrite <- (Z_mod_plus_full _ 1), Z.mod_small by lia. lia.
Qed.

(** X13.  The subtraction [max_request - existing] of [reserve] is
    unsigned: for a slot that holds more than [max_request] hashes it
    wraps around, the limit no longer binds, and [reserve] moves the whole
    queue into the slot and returns [true] (the sizes being such that
    their sum fits a [size_t]). *)
Theorem reserve_wraps_past_the_limit (st : state) (minimal : ptr)
    (r : reservation.t) :
  heap st !! minimal = Some r →
  (max_request_ < reservation.size r)%N →
  (reservation.size r + hash_queue.size (hashes_ st) < 2 ^ 64)%N →
  reserve minimal st
  = ({| heap := <[minimal := pending_appended r (hashes_ st)]> (heap st);
        table_ := table_ st;
        hashes_ := [];
        timeout_ := timeout_ st |}, true).
Proof.
  intros Hp Hover Hsize. unfold reserve.
  rewrite (deref_lookup _ _ _ Hp), size_sub_wraps by (done || lia).
  rewrite N.min_l by (unfold max_request_, max_block_request in *; lia).
  rewrite for_loop_const. unfold hash_queue.size. rewrite Nat2N.id.
  rewrite (reserve_prefix _ r) by done.
  rewrite take_ge, drop_ge by done. f_equal.
  unfold deref. cbn [heap].
  rewrite list_lookup_insert_eq by (by eapply lookup_lt_Some). cbn [default].
  rewrite empty_heights. unfold pending_appended. cbn [reservation.heights_].
  unfold reservation.size in Hover.
  destruct (reservation.heights_ r); [simpl in Hover; lia|done].
Qed.

(** X13 on a slot of 50001 hashes over a queue of three. *)
Lemma reserve_wraps_past_the_limit_witness :
  let st := edge.overfull in
  let r := slot_holding 0 5 (samples.headers 50001) in
  heap st !! 0 = Some r
  ∧ (max_request_ < reservation.size r)%N
  ∧ (reservation.size r + hash_queue.size (hashes_ st) < 2 ^ 64)%N
  ∧ reserve 0 st
    = ({| heap := <[0 := pending_appended r (hashes_ st)]> (heap st);
          table_ := table_ st;
          hashes_ := [];
          timeout_ := timeout_ st |}, true).
Proof.
  assert (heap edge.overfull !! 0
          = Some (slot_holding 0 5 (samples.headers 50001))) as Hp
    by reflexivity.
  assert (max_request_
          < reservation.size (slot_holding 0 5 (samples.headers 50001)))%N
    as Hover by (vm_compute; reflexivity).
  assert (reservation.size (slot_holding 0 5 (samples.headers 50001))
          + hash_queue.size (hashes_ edge.overfull) < 2 ^ 64)%N
    as Hsize by (vm_compute; reflexivity).
  split; [exact Hp|]. split; [exact Hover|]. split; [exact Hsize|].
  exact (reserve_wraps_past_the_limit edge.overfull 0 _ Hp Hover Hsize).
Defined.

(** ** The header factory of the tests *)

Section factory.
Context {header : Type}.
Context (make : hash_queue.hash_digest → header).
Context (hash_of : header → hash_queue.hash_digest).

Lemma message_factory_from_0 (hash : hash_queue.hash_digest) :
  test.message_factory_from make hash_of 0 hash = [].
Proof. done. Qed.

(** The state of the loop after [n] rounds: the elements pushed and
    [previous_hash]. *)
Lemma message_factory_loop (n : nat) (hash : hash_queue.hash_digest) :
  let c := Nat.iter n
             (λ c : list header * hash_queue.hash_digest,
                (fst c ++ [make (snd c)], hash_of (make (snd c))))
             ([], hash) in
  length (fst c) = n
  ∧ snd c = from_option hash_of hash (last (fst c))
  ∧ (∀ h, fst c !! 0 = Some h → h = make hash)
  ∧ ∀ i h h', fst c !! i = Some h → fst c !! S i = Some h' →
              h' = make (hash_of h).
Proof.
  induction n as [|n (Hlen & Hprev & Hfirst & Hchain)]; [done|].
  simpl Nat.iter. set (c := Nat.iter n _ _) in *. cbn [fst snd].
  split_and!.
  - rewrite length_app, Hlen. simpl. lia.
  - by rewrite last_snoc.
  - intros h. destruct (fst c) as [|h0 l] eqn:Hc.
    + simpl in *. rewrite Hprev. by intros [= <-].
    + simpl. intros [= <-]. by apply Hfirst.
  - intros i h h' Hi HSi.
    pose proof (lookup_lt_Some _ _ _ HSi) as Hlt.
    rewrite length_app, Hlen in Hlt. simpl in Hlt.
    destruct (decide (S i < n)) as [Hin|Hin].
    + rewrite lookup_app_l in Hi, HSi by lia. by apply (Hchain i).
    + assert (S i = n) as Heq by lia.
      rewrite lookup_app_l in Hi by lia.
      rewrite lookup_app_r in HSi by lia.
      replace (S i - length (fst c)) with 0 in HSi by lia.
      injection HSi as <-. rewrite Hprev.
      assert (last (fst c) = Some h) as ->; [|done].
      rewrite last_lookup, <- Hi. f_equal. lia.
Qed.

(** X14.  [message_factory(count, hash)] builds [count] headers that
    form a chain: the first is built on [hash] and every later one on the
    hash of the header before it; [message_factory(count)] starts from
    [null_hash]. *)
Theorem message_factory_chains_the_headers (count : N)
    (hash : hash_queue.hash_digest) :
  let message := test.message_factory_from make hash_of count hash in
  length message = N.to_nat count
  ∧ (∀ h, message !! 0 = Some h → h = make hash)
  ∧ (∀ i h h', message !! i = Some h → message !! S i = Some h' →
               h' = make (hash_of h))
  ∧ (∀ h, test.message_factory make hash_of count !! 0 = Some h →
          h = make test.null_hash).
Proof.
  intros message. subst message.
  unfold test.message_factory, test.message_factory_from.
  rewrite !for_loop_const.
  destruct (message_factory_loop (N.to_nat count) hash)
    as (Hlen & _ & Hfirst & Hchain).
  destruct (message_factory_loop (N.to_nat count) test.null_hash)
    as (_ & _ & Hgenesis & _).
  split_and!; done.
Qed.

End factory.

(** ** [rates] after [remove] *)

Lemma filter_delete {A : Type} (P : A → Prop) `{!∀ x, Decision (P x)}
    (l : list A) (i : nat) (x : A) :
  l !! i = Some x →
  filter P l
  = filter P (take i l) ++ (if decide (P x) then [x] else [])
    ++ filter P (drop (S i) l)
  ∧ filter P (delete i l) = filter P (take i l) ++ filter P (drop (S i) l).
Proof.
  intros Hi. split.
  - rewrite <- (take_drop_middle _ _ _ Hi) at 1.
    rewrite filter_app, filter_cons. by destruct (decide (P x)).
  - by rewrite delete_take_drop, filter_app.
Qed.

(** X15.  [rates] after [remove]: removing a row whose slot is idle
    leaves the whole summary as it was, and removing a row of the table
    whose slot is not idle lowers [active_rows] by exactly one. *)
Theorem remove_of_an_idle_row_keeps_the_rates
    (normal : reservation.rate_sample → float) (st : state) (row : ptr) :
  (reservation.idle (deref st row) = true →
   rates normal (remove row st) = rates normal st)
  ∧ (row ∈ table_ st → reservation.idle (deref st row) = false →
     (active_rows (rates normal (remove row st)) + 1)%N
     = active_rows (rates normal st)).
Proof.
  unfold remove.
  destruct (find row (table_ st)) as [it|] eqn:Hfind.
  - apply find_Some in Hfind as [Hit _].
    unfold rates, table, deref. cbn [heap table_ set_table active_rows].
    destruct (filter_delete
                (λ p, reservation.idle
                        (default (reservation.make 0 0) (heap st !! p)) = false)
                (table_ st) it row Hit) as [Hall Hrest].
    rewrite Hall, Hrest. split.
    + intros Hidle. rewrite decide_False by (rewrite Hidle; done). done.
    + intros _ Hactive. rewrite decide_True by done.
      rewrite !length_app. simpl. lia.
  - apply find_None in Hfind. split; [done|]. by intros Hin.
Qed.
